(** * core-js-101, 06-objects-tasks.js: the CSS selector builder and the
      JSON helpers, embedded as Rocq functions.

    The builder [cssSelectorBuilder] is one mutable JavaScript object whose
    methods all return [this].  Its fields become a record, its methods
    become computations in a state-and-exception monad in which a thrown
    [Error] keeps the state the object has at the moment of the throw. *)

From Stdlib Require Import String Ascii List ZArith Lia Bool Sorted Setoid Wf_nat.
From Stdlib Require DecimalString DecimalN DecimalPos DecimalFacts.
Import ListNotations.
Open Scope string_scope.

(** ** JavaScript array and template-literal primitives used by the code *)

(** [arr.join('')] on an array of strings. *)
Definition join (l : list string) : string := String.concat "" l.

(** [arr.push(x)]. *)
Definition push {A} (x : A) (l : list A) : list A := l ++ [x].

(** [arr.pop()]: the removed last entry ([None] is [undefined]) and the
    array that is left. *)
Definition pop {A} (l : list A) : option A * list A :=
  match rev l with
  | [] => (None, [])
  | x :: r => (Some x, rev r)
  end.

(** [arr[arr.length - 1]]: [None] is [undefined]. *)
Definition last_entry {A} (l : list A) : option A := fst (pop l).

(** [arr.indexOf(el)]: first index holding [el], [-1] when absent. *)
Fixpoint indexOf_from (i : Z) (el : string) (l : list string) : Z :=
  match l with
  | [] => (-1)%Z
  | x :: r => if String.eqb x el then i else indexOf_from (i + 1)%Z el r
  end.

Definition indexOf (el : string) (l : list string) : Z := indexOf_from 0%Z el l.

(** [x > pos] where [x] may be [undefined]: the comparison with
    [undefined] is [false]. *)
Definition js_gt (x : option Z) (pos : Z) : bool :=
  match x with
  | Some v => (pos <? v)%Z
  | None => false
  end.

(** A value spliced into a template literal: [undefined] prints as the
    word. *)
Definition tmpl (x : option string) : string :=
  match x with
  | Some v => v
  | None => "undefined"
  end.

(** The one-character string holding the double quote (code 34). *)
Definition dquote : string := String "034"%char EmptyString.

(** ** The builder object *)

Record builder : Type := mkBuilder {
  idCheck : bool;
  pseudoElementCheck : bool;
  order : list Z;
  combo : list string;
  build : list string
}.

(** The [weight] field is never assigned to: a constant. *)
Definition weight : list string :=
  ["element"; "id "; "class"; "attribute"; "pseudo-class"; "pseudo-element"].

(** [this.weight[i]]. *)
Definition weight_at (i : nat) : string := nth i weight "undefined".

(** The object literal as the module creates it. *)
Definition cssSelectorBuilder : builder :=
  {| idCheck := false; pseudoElementCheck := false;
     order := []; combo := []; build := [] |}.

Definition set_idCheck (b : bool) (s : builder) : builder :=
  {| idCheck := b; pseudoElementCheck := pseudoElementCheck s;
     order := order s; combo := combo s; build := build s |}.

Definition set_pseudoElementCheck (b : bool) (s : builder) : builder :=
  {| idCheck := idCheck s; pseudoElementCheck := b;
     order := order s; combo := combo s; build := build s |}.

Definition set_order (o : list Z) (s : builder) : builder :=
  {| idCheck := idCheck s; pseudoElementCheck := pseudoElementCheck s;
     order := o; combo := combo s; build := build s |}.

Definition set_combo (c : list string) (s : builder) : builder :=
  {| idCheck := idCheck s; pseudoElementCheck := pseudoElementCheck s;
     order := order s; combo := c; build := build s |}.

Definition set_build (b : list string) (s : builder) : builder :=
  {| idCheck := idCheck s; pseudoElementCheck := pseudoElementCheck s;
     order := order s; combo := combo s; build := b |}.

(** ** State and exceptions *)

(** What a method call leaves behind: a returned value or a thrown
    [Error] with its message, and in both cases the object's fields. *)
Inductive outcome (A : Type) : Type :=
| Return (a : A) (s : builder)
| Throw (msg : string) (s : builder).
Arguments Return {A} a s.
Arguments Throw {A} msg s.

Definition state_of {A} (r : outcome A) : builder :=
  match r with
  | Return _ s => s
  | Throw _ s => s
  end.

Definition M (A : Type) : Type := builder -> outcome A.

Definition ret {A} (a : A) : M A := fun s => Return a s.

Definition bind {A B} (m : M A) (k : A -> M B) : M B :=
  fun s =>
    match m s with
    | Return a s' => k a s'
    | Throw msg s' => Throw msg s'
    end.

Definition get : M builder := fun s => Return s s.

Definition modify (f : builder -> builder) : M unit := fun s => Return tt (f s).

Definition throw {A} (msg : string) : M A := fun s => Throw msg s.

Declare Scope js_scope.
Delimit Scope js_scope with js.
Notation "x <- m ;; k" := (bind m (fun x => k))
  (at level 61, m at next level, right associativity) : js_scope.
Notation "m ;; k" := (bind m (fun _ => k))
  (at level 61, right associativity) : js_scope.
Notation "'when' c 'then' m" := (if c then m else ret tt)
  (at level 60, c at level 9, m at level 60) : js_scope.
Open Scope js_scope.

(** ** The methods *)

Definition msg_once : string :=
  "Element, id and pseudo-element should not occur more then one time inside the selector".

Definition msg_order : string :=
  "Selector parts should be arranged in the following order: element, id, class, attribute, pseudo-class, pseudo-element".

Definition clear : M unit :=
  modify (set_combo []) ;;
  modify (set_order []) ;;
  modify (set_build []) ;;
  modify (set_idCheck false) ;;
  modify (set_pseudoElementCheck false).

Definition error {A} (msg : string) : M A :=
  clear ;;
  throw msg.

Definition inOrder (el : string) : M unit :=
  let pos := indexOf el weight in
  s <- get ;;
  if js_gt (last_entry (order s)) pos
  then error msg_order
  else modify (fun s => set_order (push pos (order s)) s).

Definition stringify : M string :=
  s <- get ;;
  let result := join (build s) in
  clear ;;
  ret result.

Definition element (value : string) : M unit :=
  s <- get ;;
  (when (0 <? length (build s))%nat then
     ((when (length (build s) <? 2)%nat then error msg_once) ;;
      modify (fun s => set_combo (push (join (build s)) (combo s)) s) ;;
      modify (set_build []) ;;
      modify (set_idCheck false) ;;
      modify (set_pseudoElementCheck false) ;;
      modify (set_order []))) ;;
  inOrder (weight_at 0) ;;
  modify (fun s => set_build (push value (build s)) s).

Definition id (value : string) : M unit :=
  s <- get ;;
  (when (idCheck s) then error msg_once) ;;
  modify (set_idCheck true) ;;
  inOrder (weight_at 1) ;;
  modify (fun s => set_build (push ("#" ++ value) (build s)) s).

Definition class (value : string) : M unit :=
  inOrder (weight_at 2) ;;
  modify (fun s => set_build (push ("." ++ value) (build s)) s).

Definition attr (value : string) : M unit :=
  inOrder (weight_at 3) ;;
  modify (fun s => set_build (push ("[" ++ value ++ "]") (build s)) s).

Definition pseudoClass (value : string) : M unit :=
  inOrder (weight_at 4) ;;
  modify (fun s => set_build (push (":" ++ value) (build s)) s).

Definition pseudoElement (value : string) : M unit :=
  s <- get ;;
  (when (pseudoElementCheck s) then error msg_once) ;;
  modify (set_pseudoElementCheck true) ;;
  inOrder (weight_at 5) ;;
  modify (fun s => set_build (push ("::" ++ value) (build s)) s).

(** [combine] reads and writes three object references.  A store of
    builder objects makes the aliasing explicit. *)
Definition loc : Type := nat.
Definition store : Type := loc -> builder.

Definition upd (h : store) (l : loc) (b : builder) : store :=
  fun l' => if Nat.eqb l' l then b else h l'.

Definition combine_in (this selector1 : loc) (combinator : string)
    (selector2 : loc) (h : store) : store :=
  let '(resultLeft, rest) := pop (combo (h selector2)) in
  let h1 := upd h selector2 (set_combo rest (h selector2)) in
  let resultRight := join (build (h1 selector1)) in
  let h2 := upd h1 this (set_build [] (h1 this)) in
  upd h2 this
    (set_build
       (push (tmpl resultLeft ++ " " ++ combinator ++ " " ++ resultRight)
             (build (h2 this)))
       (h2 this)).

(** The module exports one builder object and every method returns
    [this], so the selectors a caller can pass to [combine] are that same
    object: [combine] with its three references aliased. *)
Definition combine (combinator : string) : M unit :=
  s <- get ;;
  let '(resultLeft, rest) := pop (combo s) in
  modify (set_combo rest) ;;
  s1 <- get ;;
  let resultRight := join (build s1) in
  modify (set_build []) ;;
  modify (fun s =>
    set_build
      (push (tmpl resultLeft ++ " " ++ combinator ++ " " ++ resultRight)
            (build s)) s).

(** ** Callers: chains of fragment calls and nested [combine] calls *)

Inductive call : Type :=
| Element (value : string)
| Id (value : string)
| ClassName (value : string)
| Attr (value : string)
| PseudoClass (value : string)
| PseudoElement (value : string).

Definition perform (c : call) : M unit :=
  match c with
  | Element v => element v
  | Id v => id v
  | ClassName v => class v
  | Attr v => attr v
  | PseudoClass v => pseudoClass v
  | PseudoElement v => pseudoElement v
  end.

(** The position of the call's kind in [weight]. *)
Definition rank (c : call) : Z :=
  match c with
  | Element _ => 0
  | Id _ => 1
  | ClassName _ => 2
  | Attr _ => 3
  | PseudoClass _ => 4
  | PseudoElement _ => 5
  end%Z.

(** The text the call pushes on [build] when it is accepted. *)
Definition text (c : call) : string :=
  match c with
  | Element v => v
  | Id v => "#" ++ v
  | ClassName v => "." ++ v
  | Attr v => "[" ++ v ++ "]"
  | PseudoClass v => ":" ++ v
  | PseudoElement v => "::" ++ v
  end.

Definition is_element (c : call) : bool :=
  match c with
  | Element _ => true
  | _ => false
  end.

(** [builder.a(..).b(..)...]: the calls in sequence, a throw ends the
    chain. *)
Fixpoint chain (cs : list call) : M unit :=
  match cs with
  | [] => ret tt
  | c :: r => perform c ;; chain r
  end.

(** A selector expression as the callers write it; JavaScript evaluates
    the arguments of [combine] left to right, then the call. *)
Inductive selector : Type :=
| Chain (cs : list call)
| Combine (l : selector) (combinator : string) (r : selector).

Fixpoint eval (e : selector) : M unit :=
  match e with
  | Chain cs => chain cs
  | Combine l c r => eval l ;; eval r ;; combine c
  end.

(** The string a selector expression stands for: fragments concatenated,
    operands of a combinator joined with one space on each side. *)
Fixpoint render (e : selector) : string :=
  match e with
  | Chain cs => join (map text cs)
  | Combine l c r => render l ++ " " ++ c ++ " " ++ render r
  end.

(** The calls of the builder's interface: the six fragment methods,
    [stringify], and [combine] on the builder's own results. *)
Inductive op : Type :=
| Call (c : call)
| Stringify
| CombineOp (combinator : string).

Definition after (o : op) (s : builder) : builder :=
  match o with
  | Call c => state_of (perform c s)
  | Stringify => state_of (stringify s)
  | CombineOp c => state_of (combine c s)
  end.

(** The states of the exported object: a caller that catches an [Error]
    goes on from the state the throw left. *)
Inductive reachable : builder -> Prop :=
| reach_init : reachable cssSelectorBuilder
| reach_step o s : reachable s -> reachable (after o s).

(** A simple selector as a caller chains it: no [element] call after the
    first position. *)
Definition simple (cs : list call) : bool :=
  match cs with
  | [] => true
  | _ :: r => forallb (fun c => negb (is_element c)) r
  end.

Definition starts_with_element (cs : list call) : bool :=
  match cs with
  | Element _ :: _ => true
  | _ => false
  end.

(** A chain the builder accepts when it is run on the fresh object. *)
Definition accepted (cs : list call) : bool :=
  match chain cs cssSelectorBuilder with
  | Return _ _ => true
  | Throw _ _ => false
  end.

(** A chain made of fragment calls other than [element]. *)
Definition fragment_calls (cs : list call) : bool :=
  forallb (fun c => negb (is_element c)) cs.

(** An operand of [combine] as the callers write it: one simple selector
    that starts with [element] and that the fresh builder accepts. *)
Definition operand (cs : list call) : bool :=
  starts_with_element cs && simple cs && accepted cs.

(** The selector expressions whose evaluation leaves, for every [combine]
    call, its left operand on [combo] and its right operand in [build]:
    every left operand is a simple selector of two fragments or more (so
    that the [element] call that starts the right operand stashes it), and
    the right operand is a simple selector or again such a [combine]. *)
Fixpoint combinable (e : selector) : bool :=
  match e with
  | Chain cs => operand cs
  | Combine l _ r =>
      match l with
      | Chain cs => operand cs && (2 <=? length cs)%nat && combinable r
      | Combine _ _ _ => false
      end
  end.

(** A builder on which an [element] call starts a simple selector
    afresh. *)
Definition ready (s : builder) : Prop :=
  length (build s) <> 1%nat /\
  (build s = [] ->
   order s = [] /\ idCheck s = false /\ pseudoElementCheck s = false).

(** [combo] as an [element] call leaves it. *)
Definition stash (s : builder) : list string :=
  match build s with
  | [] => combo s
  | _ :: _ => combo s ++ [join (build s)]
  end.

(** The example of the source's documentation. *)
Definition documented_left : selector :=
  Chain [Element "div"; Id "main"; ClassName "container"; ClassName "draggable"].

Definition documented_right : selector :=
  Combine (Chain [Element "table"; Id "data"]) "~"
    (Combine (Chain [Element "tr"; PseudoClass "nth-of-type(even)"]) " "
       (Chain [Element "td"; PseudoClass "nth-of-type(even)"])).

(** ** Sample states of the exported object *)

(** After [id('a').class('b')]. *)
Definition after_id_class : builder :=
  {| idCheck := true; pseudoElementCheck := false;
     order := [1; 2]%Z; combo := []; build := ["#a"; ".b"] |}.

(** After [class('x')]. *)
Definition after_class : builder :=
  after (Call (ClassName "x")) cssSelectorBuilder.

(** After [id('x')]. *)
Definition after_id : builder :=
  after (Call (Id "x")) cssSelectorBuilder.

(** After [id('x').pseudoElement('after')]. *)
Definition after_id_pseudo_element : builder :=
  after (Call (PseudoElement "after")) after_id.



(** ** Reading the methods as guarded state updates *)

(** The test each method makes before [inOrder] that ends in
    [error msg_once]. *)
Definition once_violation (c : call) (s : builder) : bool :=
  match c with
  | Element _ => Nat.eqb (length (build s)) 1
  | Id _ => idCheck s
  | PseudoElement _ => pseudoElementCheck s
  | _ => false
  end.

(** The object as the method has it when it calls [inOrder]. *)
Definition prepare (c : call) (s : builder) : builder :=
  match c with
  | Element _ =>
      match build s with
      | [] => s
      | _ :: _ =>
          {| idCheck := false; pseudoElementCheck := false; order := [];
             combo := combo s ++ [join (build s)]; build := [] |}
      end
  | Id _ => set_idCheck true s
  | PseudoElement _ => set_pseudoElementCheck true s
  | _ => s
  end.

(** The object after an accepted call. *)
Definition accept (c : call) (s : builder) : builder :=
  let s1 := prepare c s in
  set_build (build s1 ++ [text c]) (set_order (order s1 ++ [rank c]) s1).

(** What holds of every state of the exported object. *)
Record consistent (s : builder) : Prop := {
  order_sorted : Sorted Z.le (order s);
  order_ranks : Forall (fun r => (0 <= r <= 5)%Z) (order s);
  id_recorded : idCheck s = true <-> In 1%Z (order s);
  pseudo_element_recorded : pseudoElementCheck s = true <-> In 5%Z (order s);
  element_once : (count_occ Z.eq_dec (order s) 0%Z <= 1)%nat;
  id_once : (count_occ Z.eq_dec (order s) 1%Z <= 1)%nat;
  pseudo_element_once : (count_occ Z.eq_dec (order s) 5%Z <= 1)%nat;
  order_of_build : build s = [] -> order s = []
}.

(** * The JSON helpers *)

(** [getJSON] and [fromJSON] are one call each of the host's
    [JSON.stringify], [JSON.parse] and [Object.setPrototypeOf].  The module
    [JSON] models the two codec functions after their ECMAScript
    definitions, on the values JSON texts stand for: [null], booleans,
    numbers that are safe integers, strings of code units below 256,
    arrays, and objects as their members in enumeration order.  Numbers
    with a fraction or beyond the safe integers are floating point and are
    left out. *)

Set Warnings "-register-all".

Module JSON.

(** The values JSON texts stand for. *)
Inductive value : Type :=
| Null
| Boolean (b : bool)
| Number (n : Z)
| Text (s : string)
| Array (elements : list value)
| Object (members : list (string * value)).

Definition quotation_mark : ascii := "034"%char.
Definition reverse_solidus : ascii := "\"%char.

(** [Number::toString] on a safe integer: decimal digits, [-] in front
    of a negative one. *)
Definition Number_toString (n : Z) : string :=
  let digits := DecimalString.NilEmpty.string_of_uint (N.to_uint (Z.abs_N n)) in
  if (n <? 0)%Z then String "-" digits else digits.

Definition hex_digit (n : nat) : ascii :=
  nth n ["0"; "1"; "2"; "3"; "4"; "5"; "6"; "7"; "8"; "9";
         "a"; "b"; "c"; "d"; "e"; "f"]%char "0"%char.

(** One code unit as [QuoteJSONString] writes it. *)
Definition escape (c : ascii) : string :=
  match nat_of_ascii c with
  | 8 => "\b"
  | 9 => "\t"
  | 10 => "\n"
  | 12 => "\f"
  | 13 => "\r"
  | 34 => String reverse_solidus (String quotation_mark "")
  | 92 => "\\"
  | n => if (n <? 32)%nat
         then "\u00" ++ String (hex_digit (n / 16)) (String (hex_digit (n mod 16)) "")
         else String c ""
  end.

Fixpoint escape_all (s : string) : string :=
  match s with
  | EmptyString => ""
  | String c r => escape c ++ escape_all r
  end.

Definition QuoteJSONString (s : string) : string :=
  String quotation_mark (escape_all s ++ String quotation_mark "").

Definition member_text (print : value -> string) (kv : string * value) : string :=
  QuoteJSONString (fst kv) ++ ":" ++ print (snd kv).

(** [JSON.stringify(v)] with no replacer and no indentation. *)
Fixpoint stringify (v : value) : string :=
  match v with
  | Null => "null"
  | Boolean true => "true"
  | Boolean false => "false"
  | Number n => Number_toString n
  | Text s => QuoteJSONString s
  | Array l => "[" ++ String.concat "," (map stringify l) ++ "]"
  | Object m => "{" ++ String.concat "," (map (member_text stringify) m) ++ "}"
  end.

(** *** [JSON.parse] *)

Definition is_whitespace (c : ascii) : bool :=
  match nat_of_ascii c with
  | 9 | 10 | 13 | 32 => true
  | _ => false
  end.

Fixpoint skip_whitespace (s : string) : string :=
  match s with
  | String c r => if is_whitespace c then skip_whitespace r else s
  | EmptyString => s
  end.

(** [expect lit s]: what follows [lit] at the start of [s]. *)
Fixpoint expect (lit s : string) : option string :=
  match lit, s with
  | EmptyString, _ => Some s
  | String a lit', String b s' => if Ascii.eqb a b then expect lit' s' else None
  | String _ _, EmptyString => None
  end.

Definition hex_value (c : ascii) : option nat :=
  let n := nat_of_ascii c in
  if ((48 <=? n) && (n <=? 57))%nat then Some (n - 48)%nat
  else if ((97 <=? n) && (n <=? 102))%nat then Some (n - 87)%nat
  else if ((65 <=? n) && (n <=? 70))%nat then Some (n - 55)%nat
  else None.

(** The code unit of [\uXXXX]; the texts of this model hold code units
    below 256 only. *)
Definition code_unit (h1 h2 h3 h4 : ascii) : option ascii :=
  match hex_value h1, hex_value h2, hex_value h3, hex_value h4 with
  | Some a, Some b, Some c, Some d =>
      let n := (((a * 16 + b) * 16 + c) * 16 + d)%nat in
      if (n <? 256)%nat then Some (ascii_of_nat n) else None
  | _, _, _, _ => None
  end.

Definition unescape (c : ascii) : option ascii :=
  match nat_of_ascii c with
  | 34 => Some quotation_mark
  | 92 => Some reverse_solidus
  | 47 => Some "/"%char
  | 98 => Some (ascii_of_nat 8)
  | 102 => Some (ascii_of_nat 12)
  | 110 => Some (ascii_of_nat 10)
  | 114 => Some (ascii_of_nat 13)
  | 116 => Some (ascii_of_nat 9)
  | _ => None
  end.

Definition cons_char (c : ascii) (r : option (string * string))
  : option (string * string) :=
  match r with
  | Some (t, rest) => Some (String c t, rest)
  | None => None
  end.

(** The characters of a string literal after its opening quotation mark,
    and what follows the closing one. *)
Fixpoint parse_characters (s : string) : option (string * string) :=
  match s with
  | EmptyString => None
  | String c r =>
      if Ascii.eqb c quotation_mark then Some ("", r)
      else if Ascii.eqb c reverse_solidus then
        match r with
        | String e r1 =>
            if Ascii.eqb e "u" then
              match r1 with
              | String h1 (String h2 (String h3 (String h4 r2))) =>
                  match code_unit h1 h2 h3 h4 with
                  | Some u => cons_char u (parse_characters r2)
                  | None => None
                  end
              | _ => None
              end
            else
              match unescape e with
              | Some u => cons_char u (parse_characters r1)
              | None => None
              end
        | EmptyString => None
        end
      else if (nat_of_ascii c <? 32)%nat then None
      else cons_char c (parse_characters r)
  end.

Definition is_digit (c : ascii) : bool :=
  ((48 <=? nat_of_ascii c) && (nat_of_ascii c <=? 57))%nat.

(** The longest prefix of digits, and the rest. *)
Fixpoint digits (s : string) : string * string :=
  match s with
  | String c r =>
      if is_digit c then let '(d, rest) := digits r in (String c d, rest)
      else ("", s)
  | EmptyString => ("", s)
  end.

Definition starts_fraction_or_exponent (s : string) : bool :=
  match s with
  | String c _ => Ascii.eqb c "." || Ascii.eqb c "e" || Ascii.eqb c "E"
  | EmptyString => false
  end.

Definition leading_zero (d : string) : bool :=
  match d with
  | String c (String _ _) => Ascii.eqb c "0"
  | _ => false
  end.

(** The digits of a number token without fraction or exponent and their
    integer; tokens with a fraction or an exponent, and [-0], have no
    value in this model. *)
Definition parse_digits (negative : bool) (s : string) : option (Z * string) :=
  let '(d, rest) := digits s in
  match d with
  | EmptyString => None
  | String _ _ =>
      if leading_zero d || starts_fraction_or_exponent rest then None
      else
        match DecimalString.NilEmpty.uint_of_string d with
        | Some u =>
            let n := Z.of_N (N.of_uint u) in
            if negative then
              if (n =? 0)%Z then None else Some ((- n)%Z, rest)
            else Some (n, rest)
        | None => None
        end
  end.

Definition parse_number (s : string) : option (Z * string) :=
  match s with
  | String c r =>
      if Ascii.eqb c "-" then parse_digits true r else parse_digits false s
  | EmptyString => None
  end.

(** [CreateDataProperty] on the members in enumeration order: a key
    already there keeps its place and takes the new value.  New keys are
    listed in text order; the host lists the keys that are array indices
    first, in ascending order, so the list is the host's enumeration for
    the texts whose keys are not array indices or come in that order. *)
Fixpoint define (k : string) (v : value) (m : list (string * value))
  : list (string * value) :=
  match m with
  | [] => [(k, v)]
  | (k', v') :: r =>
      if String.eqb k' k then (k, v) :: r else (k', v') :: define k v r
  end.

Definition define_all (l : list (string * value)) : list (string * value) :=
  fold_left (fun m kv => define (fst kv) (snd kv) m) l [].

(** The recursive descent, with [fuel] bounding the nesting and the
    number of elements read. *)
Fixpoint parse_value (fuel : nat) (s : string) : option (value * string) :=
  match fuel with
  | O => None
  | S f =>
      match skip_whitespace s with
      | EmptyString => None
      | String c r as t =>
          if Ascii.eqb c "n" then
            option_map (fun rest => (Null, rest)) (expect "null" t)
          else if Ascii.eqb c "t" then
            option_map (fun rest => (Boolean true, rest)) (expect "true" t)
          else if Ascii.eqb c "f" then
            option_map (fun rest => (Boolean false, rest)) (expect "false" t)
          else if Ascii.eqb c quotation_mark then
            match parse_characters r with
            | Some (x, rest) => Some (Text x, rest)
            | None => None
            end
          else if Ascii.eqb c "[" then
            match skip_whitespace r with
            | String c' r' as t' =>
                if Ascii.eqb c' "]" then Some (Array [], r')
                else
                  match parse_elements f t' with
                  | Some (l, rest) => Some (Array l, rest)
                  | None => None
                  end
            | EmptyString => None
            end
          else if Ascii.eqb c "{" then
            match skip_whitespace r with
            | String c' r' as t' =>
                if Ascii.eqb c' "}" then Some (Object [], r')
                else
                  match parse_members f t' with
                  | Some (m, rest) => Some (Object (define_all m), rest)
                  | None => None
                  end
            | EmptyString => None
            end
          else
            match parse_number t with
            | Some (n, rest) => Some (Number n, rest)
            | None => None
            end
      end
  end

with parse_elements (fuel : nat) (s : string) : option (list value * string) :=
  match fuel with
  | O => None
  | S f =>
      match parse_value f s with
      | Some (v, rest) =>
          match skip_whitespace rest with
          | String c r =>
              if Ascii.eqb c "," then
                match parse_elements f r with
                | Some (l, rest') => Some (v :: l, rest')
                | None => None
                end
              else if Ascii.eqb c "]" then Some ([v], r)
              else None
          | EmptyString => None
          end
      | None => None
      end
  end

with parse_members (fuel : nat) (s : string)
  : option (list (string * value) * string) :=
  match fuel with
  | O => None
  | S f =>
      match skip_whitespace s with
      | String q r =>
          if Ascii.eqb q quotation_mark then
            match parse_characters r with
            | Some (k, r1) =>
                match skip_whitespace r1 with
                | String c r2 =>
                    if Ascii.eqb c ":" then
                      match parse_value f r2 with
                      | Some (v, r3) =>
                          match skip_whitespace r3 with
                          | String c' r4 =>
                              if Ascii.eqb c' "," then
                                match parse_members f r4 with
                                | Some (m, rest) => Some ((k, v) :: m, rest)
                                | None => None
                                end
                              else if Ascii.eqb c' "}" then Some ([(k, v)], r4)
                              else None
                          | EmptyString => None
                          end
                      | None => None
                      end
                    else None
                | EmptyString => None
                end
            | None => None
            end
          else None
      | EmptyString => None
      end
  end.

(** [JSON.parse(text)] with no reviver; [None] is the [SyntaxError].  No
    value nests deeper and no array or object has more entries than the
    text has characters. *)
Definition parse (text : string) : option value :=
  match parse_value (String.length text) text with
  | Some (v, rest) =>
      match skip_whitespace rest with
      | EmptyString => Some v
      | String _ _ => None
      end
  | None => None
  end.

(** The fuel the descent uses on the text of [v]. *)
Fixpoint fuel_of (v : value) : nat :=
  match v with
  | Array l => S (fold_right (fun e n => S (fuel_of e + n)) 0%nat l)
  | Object m => S (fold_right (fun kv n => S (fuel_of (snd kv) + n)) 0%nat m)
  | _ => 1%nat
  end.

Fixpoint distinct (keys : list string) : bool :=
  match keys with
  | [] => true
  | k :: r => negb (existsb (String.eqb k) r) && distinct r
  end.

(** [Number.MAX_SAFE_INTEGER], 2^53 - 1. *)
Definition MAX_SAFE_INTEGER : Z := 9007199254740991.

(** The values of this type that are JavaScript values: a number is an
    integer that a double holds exactly and prints in full
    ([Number.isSafeInteger]), and no object has two members of the same
    key. *)
Fixpoint representable (v : value) : bool :=
  match v with
  | Number n => (Z.abs n <=? MAX_SAFE_INTEGER)%Z
  | Array l => forallb representable l
  | Object m =>
      distinct (map fst m) && forallb (fun kv => representable (snd kv)) m
  | _ => true
  end.

(** The first character of the text of a value. *)
Definition starts_value (c : ascii) : bool :=
  is_digit c || Ascii.eqb c "-" || Ascii.eqb c "n" || Ascii.eqb c "t" ||
  Ascii.eqb c "f" || Ascii.eqb c quotation_mark || Ascii.eqb c "[" ||
  Ascii.eqb c "{".

Definition elements_text (l : list value) : string :=
  String.concat "," (map stringify l).

Definition members_text (m : list (string * value)) : string :=
  String.concat "," (map (member_text stringify) m).

Definition elements_fuel (l : list value) : nat :=
  fold_right (fun e n => S (fuel_of e + n)) 0%nat l.

Definition members_fuel (m : list (string * value)) : nat :=
  fold_right (fun kv n => S (fuel_of (snd kv) + n)) 0%nat m.

(** What may follow a number token. *)
Definition ends_number (rest : string) : bool :=
  match rest with
  | String c _ => negb (is_digit c) && negb (starts_fraction_or_exponent rest)
  | EmptyString => true
  end.

End JSON.

(** [getJSON(obj)]. *)
Definition getJSON (obj : JSON.value) : string := JSON.stringify obj.

(** The errors [fromJSON] lets through. *)
Inductive exception : Type :=
| SyntaxError
| TypeError.

(** What [fromJSON] returns: a primitive as it is, or an object (array)
    with the members (elements) parsed and the prototype set. *)
Inductive instance (prototype : Type) : Type :=
| Primitive (v : JSON.value)
| Instance (proto : prototype) (own : JSON.value).
Arguments Primitive {prototype} v.
Arguments Instance {prototype} proto own.

(** [Object.setPrototypeOf(O, proto)] for [proto] an object or [null]: a
    [TypeError] on [null], nothing to do on the other primitives. *)
Definition setPrototypeOf {prototype : Type} (O : JSON.value) (proto : prototype)
  : exception + instance prototype :=
  match O with
  | JSON.Null => inl TypeError
  | JSON.Array _ | JSON.Object _ => inr (Instance proto O)
  | _ => inr (Primitive O)
  end.

(** [fromJSON(proto, json)]. *)
Definition fromJSON {prototype : Type} (proto : prototype) (json : string)
  : exception + instance prototype :=
  match JSON.parse json with
  | None => inl SyntaxError
  | Some obj => setPrototypeOf obj proto
  end.

(** The data fields of a returned value. *)
Definition data {prototype : Type} (r : instance prototype) : JSON.value :=
  match r with
  | Primitive v => v
  | Instance _ own => own
  end.

Definition structured (v : JSON.value) : bool :=
  match v with
  | JSON.Array _ | JSON.Object _ => true
  | _ => false
  end.

(** [{ radius: 10, tags: ["a", "b"], centre: { x: -1, y: 0 } }]. *)
Definition circle : JSON.value :=
  JSON.Object
    [("radius", JSON.Number 10);
     ("tags", JSON.Array [JSON.Text "a"; JSON.Text "b"]);
     ("centre", JSON.Object [("x", JSON.Number (-1)); ("y", JSON.Number 0)])].

(** * Further vocabulary for the builder *)

(** The kinds whose method has no uniqueness test. *)
Definition repeatable (c : call) : bool :=
  match c with
  | ClassName _ | Attr _ | PseudoClass _ => true
  | _ => false
  end.

(** The uses of the builder when [combine] is left aside: a fragment
    call, or [stringify]. *)
Inductive use : Type :=
| Fragment (c : call)
| Render.

(** A sequence of uses run on the builder in state [s], a caller catching
    every error and going on.  Beside the state it keeps [cs], the calls
    that returned since the builder was last emptied (by a throw or by
    [stringify]). *)
Fixpoint replay (us : list use) (s : builder) (cs : list call)
  : builder * list call :=
  match us with
  | [] => (s, cs)
  | Fragment c :: r =>
      match perform c s with
      | Return _ s' => replay r s' (cs ++ [c])
      | Throw _ s' => replay r s' []
      end
  | Render :: r => replay r (state_of (stringify s)) []
  end.

(** The calls of [cs] from its last [element] call on; all of [cs] when
    it has no [element] call after the first position. *)
Fixpoint current (cs : list call) : list call :=
  match cs with
  | [] => []
  | c :: r => if existsb is_element r then current r else c :: r
  end.

(** The last simple selector of a selector expression. *)
Fixpoint rightmost (e : selector) : list call :=
  match e with
  | Chain cs => cs
  | Combine _ _ r => rightmost r
  end.

(** [build] after the evaluation of a combinable expression: the fragments
    of a chain, the one joined string of a [combine]. *)
Definition built (e : selector) (s : builder) : builder :=
  match e with
  | Chain _ => s
  | Combine _ _ _ => set_build [render e] s
  end.

(** * [Rectangle] *)

(** The prototype objects of this file's callers: [Rectangle.prototype],
    which holds [getArea], and any other one, by its name. *)
Inductive prototype_object : Type :=
| Rectangle_prototype
| Other_prototype (name : string).

(** [new Rectangle(width, height)] for two safe integers: an object whose
    prototype is [Rectangle.prototype], with the two fields assigned in
    this order. *)
Definition Rectangle (width height : Z) : instance prototype_object :=
  Instance Rectangle_prototype
    (JSON.Object [("width", JSON.Number width); ("height", JSON.Number height)]).

(** [obj[key]] on the members of an object: [None] is [undefined]. *)
Fixpoint member (key : string) (m : list (string * JSON.value))
  : option JSON.value :=
  match m with
  | [] => None
  | (k, v) :: r => if String.eqb k key then Some v else member key r
  end.

(** The product of two safe integers when it is a safe integer itself;
    [None] when the double would be rounded. *)
Definition multiply (a b : Z) : option Z :=
  if (Z.abs (a * b) <=? JSON.MAX_SAFE_INTEGER)%Z then Some (a * b)%Z else None.

(** [Rectangle.prototype.getArea] on [this]: [this.width * this.height]
    for an object whose two fields are numbers.  [None] stands for the
    results this model has no value for: [NaN] (a field is missing) and
    the products that go through [ToNumber] or are rounded. *)
Definition getArea (this : instance prototype_object) : option Z :=
  match data this with
  | JSON.Object m =>
      match member "width" m, member "height" m with
      | Some (JSON.Number w), Some (JSON.Number h) => multiply w h
      | _, _ => None
      end
  | _ => None
  end.

(** A text made of JSON whitespace only. *)
Fixpoint whitespace (s : string) : bool :=
  match s with
  | EmptyString => true
  | String c r => JSON.is_whitespace c && whitespace r
  end.

(** * Properties *)

(** ** Arrays *)

Lemma pop_push {A} (l : list A) (x : A) : pop (l ++ [x]) = (Some x, l).
Proof.
  unfold pop. rewrite rev_app_distr. simpl. now rewrite rev_involutive.
Qed.


Lemma last_entry_push {A} (l : list A) (x : A) : last_entry (l ++ [x]) = Some x.
Proof. unfold last_entry. now rewrite pop_push. Qed.


Lemma append_nil_r (x : string) : x ++ "" = x.
Proof. induction x as [|a x IH]; simpl; [reflexivity | now rewrite IH]. Qed.

Lemma append_assoc (x y z : string) : (x ++ y) ++ z = x ++ (y ++ z).
Proof. induction x as [|a x IH]; simpl; [reflexivity | now rewrite IH]. Qed.

Lemma join_app (l1 l2 : list string) : join (l1 ++ l2) = join l1 ++ join l2.
Proof.
  unfold join. induction l1 as [|x l1 IH]; simpl.
  - reflexivity.
  - destruct l1 as [|y l1]; simpl in *.
    + destruct l2; simpl.
      * now rewrite append_nil_r.
      * reflexivity.
    + rewrite IH. now rewrite append_assoc.
Qed.


Lemma weight_index (i : nat) :
  (i < 6)%nat -> indexOf (weight_at i) weight = Z.of_nat i.
Proof.
  intros H.
  do 6 (destruct i as [|i]; [reflexivity|]). lia.
Qed.


(** ** The methods, one equation each *)

Lemma clear_eq (s : builder) : clear s = Return tt cssSelectorBuilder.
Proof. reflexivity. Qed.

Lemma error_eq {A} (msg : string) (s : builder) :
  @error A msg s = Throw msg cssSelectorBuilder.
Proof. reflexivity. Qed.

Lemma inOrder_eq (i : nat) (s : builder) :
  (i < 6)%nat ->
  inOrder (weight_at i) s =
  if js_gt (last_entry (order s)) (Z.of_nat i)
  then Throw msg_order cssSelectorBuilder
  else Return tt (set_order (order s ++ [Z.of_nat i]) s).
Proof.
  intros H. unfold inOrder. rewrite (weight_index i H).
  unfold bind, get. destruct (js_gt _ _); reflexivity.
Qed.

Lemma stringify_eq (s : builder) :
  stringify s = Return (join (build s)) cssSelectorBuilder.
Proof. reflexivity. Qed.

Ltac step_inOrder i :=
  unfold bind; try rewrite (inOrder_eq i) by lia; simpl;
  try destruct (js_gt _ _); reflexivity.

Lemma perform_eq (c : call) (s : builder) :
  perform c s =
  if once_violation c s then Throw msg_once cssSelectorBuilder
  else if js_gt (last_entry (order (prepare c s))) (rank c)
       then Throw msg_order cssSelectorBuilder
       else Return tt (accept c s).
Proof.
  destruct c as [v|v|v|v|v|v]; destruct s as [ic pc o k b]; simpl;
    unfold element, id, class, attr, pseudoClass, pseudoElement, bind, get;
    simpl.
  - destruct b as [|x [|y b]]; simpl; [step_inOrder 0%nat | reflexivity |].
    step_inOrder 0%nat.
  - destruct ic; simpl; [reflexivity | step_inOrder 1%nat].
  - step_inOrder 2%nat.
  - step_inOrder 3%nat.
  - step_inOrder 4%nat.
  - destruct pc; simpl; [reflexivity | step_inOrder 5%nat].
Qed.

Lemma combine_eq (c : string) (s : builder) :
  combine c s =
  Return tt
    (set_build
       [tmpl (fst (pop (combo s))) ++ " " ++ c ++ " " ++ join (build s)]
       (set_combo (snd (pop (combo s))) s)).
Proof.
  unfold combine, bind, get. destruct (pop (combo s)) as [l rest].
  reflexivity.
Qed.

Lemma perform_throw (c : call) (s : builder) (msg : string) (s' : builder) :
  perform c s = Throw msg s' ->
  s' = cssSelectorBuilder /\ (msg = msg_once \/ msg = msg_order).
Proof.
  rewrite perform_eq.
  destruct (once_violation c s); [intros [= <- <-]; auto|].
  destruct (js_gt _ _); [intros [= <- <-]; auto|discriminate].
Qed.

(** ** The invariant of the exported object: establish, preserve *)

Lemma js_gt_false (l : list Z) (pos : Z) :
  js_gt (last_entry l) pos = false ->
  forall x, last_entry l = Some x -> (x <= pos)%Z.
Proof.
  intros H x Hx. rewrite Hx in H. simpl in H.
  apply Z.ltb_ge in H. exact H.
Qed.

Lemma js_gt_true (l : list Z) (pos : Z) :
  js_gt (last_entry l) pos = true <->
  exists x, last_entry l = Some x /\ (pos < x)%Z.
Proof.
  destruct (last_entry l) as [x|]; simpl.
  - rewrite Z.ltb_lt. split.
    + intros H. exists x. auto.
    + intros (y & [= ->] & H). exact H.
  - split; [discriminate | intros (y & [=] & _)].
Qed.

Lemma Sorted_push (l : list Z) (y : Z) :
  Sorted Z.le l ->
  (forall x, last_entry l = Some x -> (x <= y)%Z) ->
  Sorted Z.le (l ++ [y]).
Proof.
  induction l as [|a l IH]; intros Hs Hl; simpl.
  - repeat constructor.
  - inversion Hs as [|? ? Hs' Hhd]; subst. constructor.
    + apply IH; [exact Hs'|].
      intros x Hx. apply Hl.
      destruct l as [|b l' _] using rev_ind; [discriminate|].
      rewrite last_entry_push in Hx. injection Hx as ->.
      change (a :: l' ++ [x])%list with ((a :: l') ++ [x])%list.
      apply last_entry_push.
    + destruct l as [|b l']; simpl.
      * constructor. apply Hl. reflexivity.
      * constructor. inversion Hhd; assumption.
Qed.

Lemma consistent_init : consistent cssSelectorBuilder.
Proof.
  constructor; simpl; try lia; try constructor;
    try (intros H; discriminate); try (intros []); reflexivity.
Qed.

Lemma count_occ_push (l : list Z) (x y : Z) :
  count_occ Z.eq_dec (l ++ [y]) x =
  (count_occ Z.eq_dec l x + if Z.eq_dec y x then 1 else 0)%nat.
Proof.
  rewrite count_occ_app. simpl. destruct (Z.eq_dec y x); reflexivity.
Qed.

Lemma In_push (l : list Z) (x y : Z) : In x (l ++ [y]) <-> In x l \/ y = x.
Proof.
  rewrite in_app_iff. simpl. tauto.
Qed.

Ltac settle :=
  repeat split; intros;
  try assumption; try discriminate; try lia;
  try (constructor; fail);
  try (intuition (try lia; try discriminate; try congruence); fail).

Lemma consistent_prepare (c : call) (s : builder) :
  consistent s ->
  once_violation c s = false ->
  let o1 := order (prepare c s) in
  let hit (r : Z) : nat := if Z.eq_dec (rank c) r then 1%nat else 0%nat in
  Sorted Z.le o1 /\
  Forall (fun r => (0 <= r <= 5)%Z) o1 /\
  (idCheck (prepare c s) = true <-> In 1%Z o1 \/ rank c = 1%Z) /\
  (pseudoElementCheck (prepare c s) = true <-> In 5%Z o1 \/ rank c = 5%Z) /\
  (count_occ Z.eq_dec o1 0%Z + hit 0%Z <= 1)%nat /\
  (count_occ Z.eq_dec o1 1%Z + hit 1%Z <= 1)%nat /\
  (count_occ Z.eq_dec o1 5%Z + hit 5%Z <= 1)%nat.
Proof.
  intros [Hs Hr Hi Hp He Hi1 Hp1 Hb] Ho.
  destruct s as [ic pc o k b]; simpl in *.
  destruct c as [v|v|v|v|v|v]; simpl in *.
  - destruct b as [|x b]; simpl.
    + rewrite (Hb eq_refl) in *. simpl in *. settle.
    + settle.
  - assert (Hc : count_occ Z.eq_dec o 1%Z = 0%nat).
    { apply count_occ_not_In. rewrite <- Hi, Ho. discriminate. }
    settle.
  - settle.
  - settle.
  - settle.
  - assert (Hc : count_occ Z.eq_dec o 5%Z = 0%nat).
    { apply count_occ_not_In. rewrite <- Hp, Ho. discriminate. }
    settle.
Qed.

Lemma consistent_accept (c : call) (s : builder) :
  consistent s ->
  once_violation c s = false ->
  js_gt (last_entry (order (prepare c s))) (rank c) = false ->
  consistent (accept c s).
Proof.
  intros Hc Ho Hg.
  destruct (consistent_prepare c s Hc Ho)
    as (Hs & Hr & Hi & Hp & He & Hi1 & Hp1).
  assert (Hrank : (0 <= rank c <= 5)%Z) by (destruct c; simpl; lia).
  unfold accept.
  constructor; simpl; rewrite ?count_occ_push, ?In_push.
  - apply Sorted_push; [exact Hs | now apply js_gt_false].
  - apply Forall_app. split; [exact Hr | repeat constructor; lia].
  - exact Hi.
  - exact Hp.
  - exact He.
  - exact Hi1.
  - exact Hp1.
  - destruct (build (prepare c s)); discriminate.
Qed.

Lemma consistent_after (o : op) (s : builder) :
  consistent s -> consistent (after o s).
Proof.
  intros H. destruct o as [c| |c]; simpl.
  - rewrite perform_eq.
    destruct (once_violation c s) eqn:Ho; [apply consistent_init|].
    destruct (js_gt _ _) eqn:Hg; [apply consistent_init|].
    simpl. now apply consistent_accept.
  - apply consistent_init.
  - rewrite combine_eq. simpl.
    destruct H as [Hs Hr Hi Hp He Hi1 Hp1 Hb].
    constructor; simpl; try assumption. intros H; discriminate.
Qed.

Lemma reachable_consistent (s : builder) : reachable s -> consistent s.
Proof.
  induction 1 as [|o s _ IH]; [apply consistent_init | now apply consistent_after].
Qed.

(** ** Chains of calls *)


Lemma chain_cons (c : call) (cs : list call) (s : builder) :
  chain (c :: cs) s =
  match perform c s with
  | Return _ s' => chain cs s'
  | Throw msg s' => Throw msg s'
  end.
Proof. reflexivity. Qed.

(** A chain without [element] calls that is accepted has pushed the text
    of each call on [build] and its rank on [order], and left [combo]
    alone. *)
Lemma chain_fragments (cs : list call) (s s' : builder) :
  fragment_calls cs = true ->
  chain cs s = Return tt s' ->
  order s' = (order s ++ map rank cs)%list /\
  build s' = (build s ++ map text cs)%list /\
  combo s' = combo s.
Proof.
  revert s. induction cs as [|c cs IH]; intros s Hf Hc; simpl in *.
  - injection Hc as <-. now rewrite !app_nil_r.
  - apply andb_prop in Hf as [Hc0 Hf].
    unfold bind in Hc. rewrite perform_eq in Hc.
    destruct (once_violation c s); [discriminate|].
    destruct (js_gt _ _); [discriminate|].
    destruct (IH _ Hf Hc) as (Ho & Hb & Hk).
    rewrite Ho, Hb, Hk. unfold accept. simpl.
    rewrite <- !app_assoc. simpl.
    destruct c; try discriminate; simpl; auto.
Qed.

(** The fragment calls never read [combo]: the same chain is accepted
    whatever is stashed there. *)
Lemma chain_any_combo (cs : list call) (s s' : builder) (k : list string) :
  fragment_calls cs = true ->
  chain cs s = Return tt s' ->
  chain cs (set_combo k s) = Return tt (set_combo k s').
Proof.
  revert s. induction cs as [|c cs IH]; intros s Hf Hc; simpl in *.
  - now injection Hc as <-.
  - apply andb_prop in Hf as [Hc0 Hf].
    unfold bind in *. rewrite perform_eq in *.
    assert (Ho : once_violation c (set_combo k s) = once_violation c s)
      by (destruct c; try discriminate; reflexivity).
    assert (Hp : order (prepare c (set_combo k s)) = order (prepare c s))
      by (destruct c; try discriminate; reflexivity).
    assert (Ha : accept c (set_combo k s) = set_combo k (accept c s))
      by (destruct c; try discriminate; reflexivity).
    rewrite Ho, Hp, Ha.
    destruct (once_violation c s); [discriminate|].
    destruct (js_gt _ _); [discriminate|].
    now apply IH.
Qed.

(** [join('')] is plain concatenation. *)
Lemma join_fold (l : list string) : join l = fold_right append "" l.
Proof.
  unfold join. induction l as [|x l IH]; [reflexivity|].
  simpl. rewrite <- IH. destruct l as [|y l]; simpl.
  - now rewrite append_nil_r.
  - reflexivity.
Qed.

Lemma simple_chain_state (cs : list call) (s : builder) :
  simple cs = true ->
  chain cs cssSelectorBuilder = Return tt s ->
  build s = map text cs /\ order s = map rank cs /\ combo s = [].
Proof.
  intros Hs Hc. destruct cs as [|c cs].
  - now injection Hc as <-.
  - simpl in Hs. destruct (is_element c) eqn:He.
    + destruct c as [v| | | | |]; try discriminate.
      rewrite chain_cons in Hc.
      change (perform (Element v) cssSelectorBuilder)
        with (Return tt (after (Call (Element v)) cssSelectorBuilder)) in Hc.
      destruct (chain_fragments cs _ s Hs Hc) as (Ho & Hb & Hk).
      rewrite Ho, Hb, Hk. auto.
    + destruct (chain_fragments (c :: cs) cssSelectorBuilder s)
        as (Ho & Hb & Hk); [simpl; now rewrite He | exact Hc | auto].
Qed.

(** * The claims *)

(** ** Ordering *)

(** The rank test of [inOrder] as every fragment method but [element]
    meets it: a call of lower rank than the last recorded one throws. *)
Lemma lower_rank_throws (c : call) (s : builder) (r : Z) :
  is_element c = false ->
  last_entry (order s) = Some r ->
  (rank c < r)%Z ->
  exists msg, perform c s = Throw msg cssSelectorBuilder.
Proof.
  intros Hc Hl Hr. rewrite perform_eq.
  destruct (once_violation c s); [now exists msg_once|].
  assert (Hp : order (prepare c s) = order s)
    by (destruct c; try discriminate; reflexivity).
  rewrite Hp, Hl. simpl.
  apply Z.ltb_lt in Hr. rewrite Hr. now exists msg_order.
Qed.

(** C1, as the claim states it, fails: after [id('a').class('b')] the last
    accepted rank is 2, [element] has rank 0, and [element('div')] returns
    (it stashes ["#a.b"] and starts a new simple selector). *)
Lemma element_after_class_accepted :
  chain [Id "a"; ClassName "b"] cssSelectorBuilder = Return tt after_id_class /\
  last_entry (order after_id_class) = Some 2%Z /\
  (rank (Element "div") < 2)%Z /\
  perform (Element "div") after_id_class =
    Return tt {| idCheck := false; pseudoElementCheck := false;
                 order := [0]%Z; combo := ["#a.b"]; build := ["div"] |}.
Proof. repeat split. Qed.

(** C1, amended: every fragment method other than [element] throws when its
    rank is lower than the rank recorded last, leaving the cleared object;
    the ranks recorded in any state of the exported object are in
    non-decreasing order; [class] then [id] on the fresh object throws the
    ordering message. *)
Theorem order_enforced (c : call) (s : builder) :
  is_element c = false ->
  reachable s ->
  Sorted Z.le (order s) /\
  (forall r, last_entry (order s) = Some r -> (rank c < r)%Z ->
     exists msg, perform c s = Throw msg cssSelectorBuilder) /\
  (forall s', perform c s = Return tt s' ->
     order s' = (order s ++ [rank c])%list /\ Sorted Z.le (order s')) /\
  (forall x y, chain [ClassName x; Id y] cssSelectorBuilder
               = Throw msg_order cssSelectorBuilder).
Proof.
  intros Hc Hr. pose proof (reachable_consistent s Hr) as Hs.
  split; [apply Hs|]. split; [|split].
  - intros r Hl Hlt. now apply (lower_rank_throws c s r).
  - intros s' Hp.
    assert (Ha : s' = after (Call c) s) by (simpl; now rewrite Hp).
    pose proof (consistent_after (Call c) s Hs) as Hs'. rewrite <- Ha in Hs'.
    split; [|apply Hs'].
    rewrite perform_eq in Hp.
    destruct (once_violation c s); [discriminate|].
    destruct (js_gt _ _); [discriminate|].
    injection Hp as <-. destruct c; try discriminate; reflexivity.
  - reflexivity.
Qed.

Lemma order_enforced_witness :
  is_element (Id "y") = false /\
  reachable after_class /\
  exists msg, perform (Id "y") after_class = Throw msg cssSelectorBuilder.
Proof.
  assert (Hr : reachable after_class)
    by (apply (reach_step (Call (ClassName "x"))), reach_init).
  split; [reflexivity|]. split; [exact Hr|].
  destruct (order_enforced (Id "y") after_class eq_refl Hr) as (_ & H & _).
  apply (H 2%Z); [reflexivity | reflexivity].
Defined.

(** ** Uniqueness *)

(** C2: in every state of the exported object in which the current simple
    selector holds an id fragment (rank 1 is recorded), [id] throws; in
    every state in which it holds a pseudo-element fragment (rank 5 is
    recorded), [pseudoElement] throws; ranks 1 and 5 are recorded at most
    once; [id] twice, and [pseudoElement] twice, on the fresh builder
    throw. *)
Theorem one_id_one_pseudo_element (s : builder) :
  reachable s ->
  (In 1%Z (order s) ->
     idCheck s = true /\
     forall v, id v s = Throw msg_once cssSelectorBuilder) /\
  (In 5%Z (order s) ->
     pseudoElementCheck s = true /\
     forall v, pseudoElement v s = Throw msg_once cssSelectorBuilder) /\
  (count_occ Z.eq_dec (order s) 1%Z <= 1)%nat /\
  (count_occ Z.eq_dec (order s) 5%Z <= 1)%nat /\
  (forall x y, chain [Id x; Id y] cssSelectorBuilder
               = Throw msg_once cssSelectorBuilder) /\
  (forall x y, chain [PseudoElement x; PseudoElement y] cssSelectorBuilder
               = Throw msg_once cssSelectorBuilder).
Proof.
  intros Hr. destruct (reachable_consistent s Hr) as [_ _ Hi Hp _ Hi1 Hp1 _].
  repeat split; try assumption.
  - now apply Hi.
  - intros v. change (id v s) with (perform (Id v) s).
    rewrite perform_eq. simpl. apply Hi in H. now rewrite H.
  - now apply Hp.
  - intros v. change (pseudoElement v s) with (perform (PseudoElement v) s).
    rewrite perform_eq. simpl. apply Hp in H. now rewrite H.
Qed.

Lemma one_id_one_pseudo_element_witness :
  reachable after_id_pseudo_element /\
  id "y" after_id_pseudo_element = Throw msg_once cssSelectorBuilder /\
  pseudoElement "before" after_id_pseudo_element
    = Throw msg_once cssSelectorBuilder.
Proof.
  assert (Hr : reachable after_id_pseudo_element).
  { apply (reach_step (Call (PseudoElement "after"))).
    apply (reach_step (Call (Id "x"))). apply reach_init. }
  split; [exact Hr|].
  destruct (one_id_one_pseudo_element after_id_pseudo_element Hr)
    as (Hi & Hp & _).
  split.
  - apply Hi. simpl. auto.
  - apply Hp. simpl. auto.
Defined.

(** ** [element] *)




(** ** Errors clear the object *)

(** C4: when a fragment method throws, the object it leaves is the cleared
    one, so whatever is done next with the builder is done on the empty
    state. *)
Theorem throw_clears (c : call) (s : builder) (msg : string) (s' : builder) :
  perform c s = Throw msg s' ->
  s' = cssSelectorBuilder /\
  after (Call c) s = cssSelectorBuilder /\
  forall o, after o (after (Call c) s) = after o cssSelectorBuilder.
Proof.
  intros H. destruct (perform_throw c s msg s' H) as [-> _].
  simpl. rewrite H. simpl. auto.
Qed.

Lemma throw_clears_witness :
  perform (Id "y") after_id = Throw msg_once cssSelectorBuilder /\
  after (Call (Id "y")) after_id = cssSelectorBuilder.
Proof.
  split; [reflexivity|].
  apply (throw_clears (Id "y") after_id msg_once cssSelectorBuilder).
  reflexivity.
Defined.

(** ** [stringify] *)

(** C5: [stringify] on the empty builder returns the empty string; on any
    builder it returns the entries of [build] appended one after the other
    and leaves the empty builder, so that a second [stringify] right after
    returns the empty string; after an accepted simple selector the first
    [stringify] returns the texts of its calls appended in call order and
    the second returns the empty string, as after [id('main').class('a')],
    which give ['#main.a'] and then ['']. *)
Theorem stringify_destructive (s : builder) :
  stringify cssSelectorBuilder = Return "" cssSelectorBuilder /\
  stringify s = Return (fold_right append "" (build s)) cssSelectorBuilder /\
  (r1 <- stringify ;; r2 <- stringify ;; ret (r1, r2)) s
    = Return (fold_right append "" (build s), "") cssSelectorBuilder /\
  (forall cs s', simple cs = true ->
     chain cs cssSelectorBuilder = Return tt s' ->
     (r1 <- stringify ;; r2 <- stringify ;; ret (r1, r2)) s'
     = Return (fold_right append "" (map text cs), "") cssSelectorBuilder) /\
  (id "main" ;; class "a" ;; r1 <- stringify ;; r2 <- stringify ;;
   ret (r1, r2)) cssSelectorBuilder
    = Return ("#main.a", "") cssSelectorBuilder.
Proof.
  assert (H : forall s0,
            (r1 <- stringify ;; r2 <- stringify ;; ret (r1, r2)) s0
            = Return (fold_right append "" (build s0), "") cssSelectorBuilder).
  { intros s0. unfold bind. rewrite stringify_eq, join_fold. reflexivity. }
  split; [reflexivity|]. split; [|split; [apply H|split; [|reflexivity]]].
  - now rewrite stringify_eq, join_fold.
  - intros cs s' Hs Hc.
    destruct (simple_chain_state cs s' Hs Hc) as (Hb & _ & _).
    now rewrite H, Hb.
Qed.

(** ** Rendering *)

(** C7: an accepted call pushes its text, the value behind the prefix of
    its kind, at the end of [build]; a chain of accepted fragment calls
    stringifies to the texts in call order with nothing between them; the
    two chains of the examples give ['#main.a.b'] and
    ['a[href$=".png"]:focus']. *)
Theorem fragments_rendered :
  (forall v, text (Id v) = "#" ++ v /\ text (ClassName v) = "." ++ v /\
             text (Attr v) = "[" ++ v ++ "]" /\ text (PseudoClass v) = ":" ++ v) /\
  (forall c s s', is_element c = false -> perform c s = Return tt s' ->
     build s' = (build s ++ [text c])%list) /\
  (forall cs s s', fragment_calls cs = true -> chain cs s = Return tt s' ->
     stringify s' = Return (join (build s) ++ join (map text cs))
                           cssSelectorBuilder) /\
  (id "main" ;; class "a" ;; class "b" ;; stringify) cssSelectorBuilder
    = Return "#main.a.b" cssSelectorBuilder /\
  (element "a" ;; attr ("href$=" ++ dquote ++ ".png" ++ dquote) ;;
   pseudoClass "focus" ;; stringify) cssSelectorBuilder
    = Return ("a[href$=" ++ dquote ++ ".png" ++ dquote ++ "]:focus")
             cssSelectorBuilder.
Proof.
  split; [now intros v|]. split; [|split; [|split; reflexivity]].
  - intros c s s' Hc Hp.
    destruct (chain_fragments [c] s s') as (_ & Hb & _).
    + simpl. now rewrite Hc.
    + simpl. unfold bind. now rewrite Hp.
    + exact Hb.
  - intros cs s s' Hf Hc.
    destruct (chain_fragments cs s s' Hf Hc) as (_ & Hb & _).
    rewrite stringify_eq, Hb, join_app. reflexivity.
Qed.

(** ** Messages *)

(** The message of every throw of a fragment method: the "should not
    occur more then one time" message when the method's own test fails,
    the "should be arranged in the following order" message when the rank
    recorded last is greater than the method's rank. *)
Lemma message_names_rule (c : call) (s : builder) (msg : string) (s' : builder) :
  perform c s = Throw msg s' ->
  (msg = msg_once /\ once_violation c s = true) \/
  (msg = msg_order /\ once_violation c s = false /\
   exists r, last_entry (order (prepare c s)) = Some r /\ (rank c < r)%Z).
Proof.
  rewrite perform_eq.
  destruct (once_violation c s); [intros [= <- _]; now left|].
  destruct (js_gt _ _) eqn:Hg; [|discriminate].
  intros [= <- _]. right. apply js_gt_true in Hg. auto.
Qed.

(** C8: the message names the rule that is violated in [id], [class],
    [attr], [pseudoClass] and [pseudoElement], and not in [element].
    Those five throw the uniqueness message exactly on a set flag, that
    is (in a state of the builder) when an id or a pseudo-element fragment
    is already held, and the ordering message otherwise.  [element], whose
    test is the length of [build], throws the uniqueness message after any
    single fragment of another kind: no element, id or pseudo-element
    fragment is repeated, the rule violated is the order (rank 0 after a
    greater rank), and the message is not the ordering message that [id]
    throws in the same place. *)
Theorem element_reports_order_as_uniqueness (c : call) (v : string) :
  is_element c = false ->
  let s := accept c cssSelectorBuilder in
  perform c cssSelectorBuilder = Return tt s /\
  order s = [rank c] /\ ~ In 0%Z (order s) /\ (rank (Element v) < rank c)%Z /\
  perform (Element v) s = Throw msg_once cssSelectorBuilder /\
  msg_once <> msg_order /\
  (rank (Id v) < rank c ->
   perform (Id v) s = Throw msg_order cssSelectorBuilder)%Z /\
  (forall c' s' msg s'', is_element c' = false -> reachable s' ->
     perform c' s' = Throw msg s'' ->
     (msg = msg_once /\ In (rank c') (order s') /\
      (rank c' = 1 \/ rank c' = 5)%Z) \/
     (msg = msg_order /\
      exists r, last_entry (order s') = Some r /\ (rank c' < r)%Z)).
Proof.
  intros Hc s. subst s.
  repeat split.
  - destruct c; try discriminate; reflexivity.
  - destruct c; try discriminate; reflexivity.
  - destruct c; try discriminate; simpl; intros [H|[]]; discriminate.
  - destruct c; try discriminate; simpl; lia.
  - destruct c; try discriminate; reflexivity.
  - discriminate.
  - intros Hr. change (perform (Id v)) with (id v).
    destruct c; try discriminate; reflexivity.
  - intros c' s' msg s'' Hc' Hr Hp.
    destruct (reachable_consistent s' Hr) as [_ _ Hi Hpe _ _ _ _].
    assert (Ho : order (prepare c' s') = order s')
      by (destruct c'; try discriminate; reflexivity).
    destruct (message_names_rule c' s' msg s'' Hp)
      as [[-> Hv]|(-> & _ & r & Hl & Hlt)].
    + left. split; [reflexivity|].
      destruct c'; try discriminate; simpl in *.
      * split; [now apply Hi | auto].
      * split; [now apply Hpe | auto].
    + right. split; [reflexivity|]. exists r. now rewrite <- Ho.
Qed.

Lemma element_reports_order_as_uniqueness_witness :
  is_element (ClassName "x") = false /\
  chain [ClassName "x"; Element "div"] cssSelectorBuilder
    = Throw msg_once cssSelectorBuilder /\
  chain [ClassName "x"; Id "y"] cssSelectorBuilder
    = Throw msg_order cssSelectorBuilder.
Proof.
  split; [reflexivity|].
  destruct (element_reports_order_as_uniqueness (ClassName "x") "div" eq_refl)
    as (H1 & _ & _ & _ & H2 & _).
  split.
  - rewrite chain_cons, H1, chain_cons, H2. reflexivity.
  - reflexivity.
Defined.

(** ** Everything is reset *)

(** C10: after [stringify], and after an error thrown by a fragment method
    or by [error] itself, every field of the object ([build], [combo],
    [order], [idCheck], [pseudoElementCheck]) has its initial value; in
    particular [stringify] empties [combo], whatever earlier [element]
    calls stashed there. *)
Theorem reset_is_total (s : builder) :
  state_of (stringify s) = cssSelectorBuilder /\
  combo (state_of (stringify s)) = [] /\
  (forall msg, @error unit msg s = Throw msg cssSelectorBuilder) /\
  (forall c msg s', perform c s = Throw msg s' ->
     build s' = [] /\ combo s' = [] /\ order s' = [] /\
     idCheck s' = false /\ pseudoElementCheck s' = false) /\
  (element "div" ;; id "a" ;; element "p" ;; s1 <- get ;; stringify ;;
   s2 <- get ;; ret (combo s1, combo s2)) cssSelectorBuilder
    = Return (["div#a"], []) cssSelectorBuilder.
Proof.
  repeat split;
    destruct (perform_throw c s msg s' H) as [-> _]; reflexivity.
Qed.

(** ** [combine] *)

(** With its three references aliased, the method on the store is the
    method on the one object; other objects are untouched. *)
Lemma combine_in_aliased (l : loc) (c : string) (h : store) :
  combine_in l l c l h l = after (CombineOp c) (h l) /\
  forall l', l' <> l -> combine_in l l c l h l' = h l'.
Proof.
  unfold combine_in. simpl. rewrite combine_eq.
  destruct (pop (combo (h l))) as [x rest]. unfold upd.
  rewrite Nat.eqb_refl. simpl. split; [reflexivity|].
  intros l' Hl. apply Nat.eqb_neq in Hl. now rewrite Hl.
Qed.

Lemma element_ready (v : string) (s : builder) :
  ready s ->
  perform (Element v) s =
  Return tt (set_combo (stash s) (after (Call (Element v)) cssSelectorBuilder)).
Proof.
  intros [Hl He]. rewrite perform_eq. unfold stash, accept. simpl.
  destruct s as [ic pc o k b]. simpl in *.
  destruct b as [|x [|y b]]; simpl.
  - destruct (He eq_refl) as (-> & -> & ->). reflexivity.
  - now contradiction Hl.
  - reflexivity.
Qed.

Lemma operand_ready (cs : list call) (s : builder) :
  operand cs = true ->
  ready s ->
  exists s0,
    chain cs cssSelectorBuilder = Return tt s0 /\
    chain cs s = Return tt (set_combo (stash s) s0) /\
    build s0 = map text cs.
Proof.
  unfold operand, accepted. intros Ho Hr.
  apply andb_prop in Ho as [Ho Ha]. apply andb_prop in Ho as [Hs Hf].
  destruct cs as [|[v| | | | |] r]; try discriminate. simpl in Hf.
  destruct (chain (Element v :: r) cssSelectorBuilder) as [[] s0|] eqn:Hc;
    [|discriminate].
  exists s0. split; [reflexivity|].
  rewrite chain_cons in Hc. rewrite chain_cons.
  rewrite (element_ready v s Hr).
  rewrite (element_ready v cssSelectorBuilder) in Hc
    by (split; [discriminate | auto]).
  simpl in Hc. split.
  - apply (chain_any_combo r _ s0 (stash s) Hf) in Hc. exact Hc.
  - destruct (chain_fragments r _ s0 Hf Hc) as (_ & Hb & _).
    rewrite Hb. reflexivity.
Qed.

Lemma eval_combinable (e : selector) :
  combinable e = true ->
  forall s, ready s ->
  exists s', eval e s = Return tt s' /\
             join (build s') = render e /\
             combo s' = stash s.
Proof.
  induction e as [cs|l _ c r IHr]; intros He s Hs; simpl in He.
  - destruct (operand_ready cs s He Hs) as (s0 & _ & Hc & Hb).
    exists (set_combo (stash s) s0). simpl. rewrite Hb. auto.
  - destruct l as [cs|]; [|discriminate].
    apply andb_prop in He as [He Hr]. apply andb_prop in He as [Ho Hn].
    assert (Hn2 : (2 <= length cs)%nat)
      by (destruct cs as [|? [|? ?]]; [discriminate Hn.. | simpl; lia]).
    destruct (operand_ready cs s Ho Hs) as (s0 & _ & Hc & Hb).
    set (s1 := set_combo (stash s) s0) in *.
    assert (Hb1 : build s1 = map text cs) by exact Hb.
    assert (Hs1 : ready s1).
    { unfold ready. rewrite Hb1, length_map.
      split; [lia|]. destruct cs; [simpl in Hn2; lia | discriminate]. }
    assert (Hk1 : stash s1 = (stash s ++ [join (map text cs)])%list).
    { unfold stash. rewrite Hb1.
      destruct cs; [simpl in Hn2; lia | reflexivity]. }
    destruct (IHr Hr s1 Hs1) as (s2 & Hc2 & Hb2 & Hk2).
    simpl. unfold bind. rewrite Hc, Hc2, combine_eq.
    eexists. split; [reflexivity|]. simpl.
    rewrite Hk2, Hk1, pop_push. simpl. rewrite Hb2.
    split; reflexivity.
Qed.

(** C6: the code at the inputs where it departs from the claim.
    [element('div')] and [element('p')] each build and stringify on their
    own, and [combine(element('div'), '+', element('p'))], which the claim
    gives as ['div + p'], throws while its second argument is evaluated;
    [combine(element('div').class('a'), '+', class('b'))], which the claim
    gives as ['div.a + .b'], returns ['undefined + div.a.b']: nothing was
    stashed and [combine] splices [undefined]. *)
Lemma combine_not_for_every_pair :
  (eval (Chain [Element "div"]) ;; stringify) cssSelectorBuilder
    = Return "div" cssSelectorBuilder /\
  (eval (Chain [Element "p"]) ;; stringify) cssSelectorBuilder
    = Return "p" cssSelectorBuilder /\
  (eval (Combine (Chain [Element "div"]) "+" (Chain [Element "p"])) ;;
   stringify) cssSelectorBuilder
    = Throw msg_once cssSelectorBuilder /\
  (eval (Combine (Chain [Element "div"; ClassName "a"]) "+"
                 (Chain [ClassName "b"])) ;;
   stringify) cssSelectorBuilder
    = Return "undefined + div.a.b" cssSelectorBuilder.
Proof. repeat split. Qed.

Lemma operand_length_ready (cs : list call) (s : builder) :
  build s = map text cs -> (2 <= length cs)%nat -> ready s.
Proof.
  intros Hb Hn. unfold ready. rewrite Hb, length_map.
  split; [lia|]. destruct cs; [simpl in Hn; lia | discriminate].
Qed.

Lemma ready_init : ready cssSelectorBuilder.
Proof. split; [discriminate | auto]. Qed.

Lemma reachable_ready (s : builder) :
  reachable s -> length (build s) <> 1%nat -> ready s.
Proof.
  intros Hr Hl. destruct (reachable_consistent s Hr) as [_ _ Hi Hp _ _ _ Hb].
  split; [exact Hl|]. intros He. specialize (Hb He). rewrite Hb in *.
  repeat split.
  - destruct (idCheck s); [|reflexivity]. now destruct (proj1 Hi eq_refl).
  - destruct (pseudoElementCheck s); [|reflexivity].
    now destruct (proj1 Hp eq_refl).
Qed.

(** X15: where [combine] does give ["<left> <combinator> <right>"].  The
    right operand is a simple selector starting with [element], or again
    a [combine] of a simple selector of two fragments or more starting
    with [element] and such a right operand; the left operand [l] is a
    simple selector of two fragments or more.  When [l] starts with
    [element], on every state of the builder that does not hold exactly
    one fragment, and when [l] is any accepted simple selector, on the
    fresh builder, evaluating [combine(l, c, r)] and then [stringify]
    returns the text of [l], a space, the combinator, a space and the text
    of [r].  [combine] itself never throws, whatever the token, and puts
    it between single spaces after the segment it pops. *)
Theorem combine_renders (l : list call) (c : string) (r : selector) (s : builder) :
  combinable r = true ->
  (2 <= length l)%nat ->
  (operand l = true -> reachable s -> length (build s) <> 1%nat ->
   (eval (Combine (Chain l) c r) ;; stringify) s
   = Return (render (Chain l) ++ " " ++ c ++ " " ++ render r)
            cssSelectorBuilder) /\
  (simple l = true -> accepted l = true ->
   (eval (Combine (Chain l) c r) ;; stringify) cssSelectorBuilder
   = Return (render (Chain l) ++ " " ++ c ++ " " ++ render r)
            cssSelectorBuilder) /\
  (forall token s0, exists s',
      combine token s0 = Return tt s' /\
      forall left, last_entry (combo s0) = Some left ->
        stringify s' = Return (left ++ " " ++ token ++ " " ++
                               fold_right append "" (build s0))
                              cssSelectorBuilder).
Proof.
  intros Hr Hn. split; [|split].
  - intros Ho Hs Hl.
    assert (He : combinable (Combine (Chain l) c r) = true).
    { simpl. rewrite Ho, Hr.
      destruct l as [|? [|? ?]]; [simpl in Hn; lia.. | reflexivity]. }
    destruct (eval_combinable _ He s (reachable_ready s Hs Hl))
      as (s' & Hc & Hb & _).
    unfold bind at 1. rewrite Hc, stringify_eq, Hb. reflexivity.
  - intros Hs Ha. unfold accepted in Ha.
    destruct (chain l cssSelectorBuilder) as [[] s0|] eqn:Hc; [|discriminate].
    destruct (simple_chain_state l s0 Hs Hc) as (Hb & _ & Hk).
    destruct (eval_combinable r Hr s0 (operand_length_ready l s0 Hb Hn))
      as (s2 & Hc2 & Hb2 & Hk2).
    simpl. unfold bind. rewrite Hc, Hc2, combine_eq, stringify_eq. simpl.
    rewrite Hk2, Hb2. unfold stash. rewrite Hb, Hk.
    destruct l as [|c0 l]; [simpl in Hn; lia|].
    change ([] ++ [join (map text (c0 :: l))])%list
      with [join (map text (c0 :: l))].
    reflexivity.
  - intros token s0. rewrite combine_eq. eexists. split; [reflexivity|].
    intros left Hl. unfold last_entry in Hl. rewrite stringify_eq. simpl.
    rewrite Hl, <- join_fold. reflexivity.
Qed.

Lemma combine_renders_witness :
  combinable documented_right = true /\
  (eval (Combine documented_left "+" documented_right) ;; stringify)
    cssSelectorBuilder
  = Return
      "div#main.container.draggable + table#data ~ tr:nth-of-type(even)   td:nth-of-type(even)"
      cssSelectorBuilder /\
  (eval (Combine (Chain [Id "main"; ClassName "c"]) "+"
                 (Chain [Element "div"])) ;; stringify) cssSelectorBuilder
  = Return "#main.c + div" cssSelectorBuilder.
Proof.
  split; [reflexivity|]. split.
  - destruct (combine_renders
                [Element "div"; Id "main"; ClassName "container";
                 ClassName "draggable"] "+" documented_right
                cssSelectorBuilder eq_refl) as (H & _ & _).
    + simpl. lia.
    + apply H; [reflexivity | apply reach_init | discriminate].
  - destruct (combine_renders [Id "main"; ClassName "c"] "+"
                (Chain [Element "div"]) cssSelectorBuilder eq_refl)
      as (_ & H & _).
    + simpl. lia.
    + apply H; reflexivity.
Defined.


(** * The JSON helpers: [JSON.parse] reads back what [JSON.stringify] writes *)

Lemma length_append (x y : string) :
  String.length (x ++ y) = (String.length x + String.length y)%nat.
Proof. induction x as [|a x IH]; simpl; [reflexivity | now rewrite IH]. Qed.

Module JSONFacts.
Import JSON.

Lemma expect_append (lit rest : string) : expect lit (lit ++ rest) = Some rest.
Proof.
  induction lit as [|a lit IH]; simpl.
  - now destruct rest.
  - now rewrite Ascii.eqb_refl.
Qed.

Ltac each_char c :=
  destruct c as [[|] [|] [|] [|] [|] [|] [|] [|]].

Lemma parse_escape (c : ascii) (x : string) :
  parse_characters (escape c ++ x) = cons_char c (parse_characters x).
Proof. each_char c; reflexivity. Qed.

Lemma parse_characters_quoted (s rest : string) :
  parse_characters (escape_all s ++ String quotation_mark rest) = Some (s, rest).
Proof.
  induction s as [|c s IH]; simpl.
  - reflexivity.
  - rewrite append_assoc, parse_escape, IH. reflexivity.
Qed.


Lemma digits_stop (rest : string) :
  ends_number rest = true -> digits rest = ("", rest).
Proof.
  destruct rest as [|c r]; simpl; [reflexivity|].
  intros H. apply andb_prop in H as [H _].
  apply negb_true_iff in H. now rewrite H.
Qed.

Lemma digits_of_uint (u : Decimal.uint) (rest : string) :
  ends_number rest = true ->
  digits (DecimalString.NilEmpty.string_of_uint u ++ rest) = (DecimalString.NilEmpty.string_of_uint u, rest).
Proof.
  intros H. induction u; simpl; rewrite ?IHu; try reflexivity.
  now apply digits_stop.
Qed.

Lemma to_uint_canonical (m : N) :
  exists c r, DecimalString.NilEmpty.string_of_uint (N.to_uint m) = String c r /\
              is_digit c = true /\
              leading_zero (String c r) = false.
Proof.
  assert (Hn : Decimal.unorm (N.to_uint m) = N.to_uint m).
  { rewrite <- (DecimalN.Unsigned.to_of (N.to_uint m)).
    now rewrite DecimalN.Unsigned.of_to. }
  assert (Hnil : N.to_uint m <> Decimal.Nil).
  { destruct m; simpl; [discriminate | apply DecimalPos.Unsigned.to_uint_nonnil]. }
  destruct (N.to_uint m) as [|u|u|u|u|u|u|u|u|u|u] eqn:E;
    try congruence; simpl;
    try (eexists; eexists; split; [reflexivity|];
         split; [reflexivity | now destruct (DecimalString.NilEmpty.string_of_uint u)]).
  exists "0"%char, (DecimalString.NilEmpty.string_of_uint u).
  split; [reflexivity|]. split; [reflexivity|].
  destruct u; simpl; try reflexivity;
    exfalso; rewrite DecimalFacts.unorm_D0 in Hn;
    match type of Hn with
    | Decimal.unorm ?d = _ =>
        assert (Hd : d <> Decimal.Nil) by discriminate;
        pose proof (DecimalFacts.nb_digits_unorm d Hd) as Hle;
        rewrite Hn in Hle; simpl in Hle; lia
    end.
Qed.

Lemma parse_digits_of_N (negative : bool) (m : N) (rest : string) :
  ends_number rest = true ->
  parse_digits negative (DecimalString.NilEmpty.string_of_uint (N.to_uint m) ++ rest) =
  if negative
  then if (Z.of_N m =? 0)%Z then None else Some ((- Z.of_N m)%Z, rest)
  else Some (Z.of_N m, rest).
Proof.
  intros He. unfold parse_digits.
  destruct (to_uint_canonical m) as (c & r & Hs & _ & Hz).
  assert (Hrest : starts_fraction_or_exponent rest = false).
  { destruct rest as [|a rest]; [reflexivity|]. simpl in He.
    apply andb_prop in He as [_ He]. now apply negb_true_iff in He. }
  rewrite (digits_of_uint _ rest He), Hs, Hz, Hrest.
  rewrite <- Hs, DecimalString.NilEmpty.usu, DecimalN.Unsigned.of_to. reflexivity.
Qed.

Lemma parse_number_toString (n : Z) (rest : string) :
  ends_number rest = true ->
  parse_number (Number_toString n ++ rest) = Some (n, rest).
Proof.
  intros He. unfold Number_toString.
  destruct (n <? 0)%Z eqn:Hneg.
  - simpl. rewrite (parse_digits_of_N true _ rest He).
    apply Z.ltb_lt in Hneg. rewrite N2Z.inj_abs_N.
    destruct (Z.abs n =? 0)%Z eqn:H0; [apply Z.eqb_eq in H0; lia|].
    f_equal. f_equal. lia.
  - destruct (to_uint_canonical (Z.abs_N n)) as (c & r & Hs & Hd & _).
    assert (Hminus : Ascii.eqb c "-" = false).
    { revert Hd. clear. each_char c; intros H; try reflexivity; discriminate H. }
    rewrite Hs. simpl. rewrite Hminus.
    change (String c (r ++ rest)) with (String c r ++ rest).
    rewrite <- Hs, (parse_digits_of_N false _ rest He).
    apply Z.ltb_ge in Hneg. rewrite N2Z.inj_abs_N.
    f_equal. f_equal. lia.
Qed.

(** Members of distinct keys are defined one after the other. *)

Lemma define_fresh (k : string) (v : value) (acc : list (string * value)) :
  existsb (String.eqb k) (map fst acc) = false ->
  define k v acc = (acc ++ [(k, v)])%list.
Proof.
  induction acc as [|[k' v'] acc IH]; simpl; [reflexivity|].
  intros H. apply orb_false_elim in H as [Hk H].
  rewrite String.eqb_sym, Hk. now rewrite IH.
Qed.

Lemma distinct_middle (a b : list string) (k : string) :
  distinct (a ++ k :: b) = true -> existsb (String.eqb k) a = false.
Proof.
  induction a as [|x a IH]; simpl; [reflexivity|].
  intros H. apply andb_prop in H as [Hx H].
  apply negb_true_iff in Hx. rewrite existsb_app in Hx. simpl in Hx.
  apply orb_false_elim in Hx as [_ Hx]. apply orb_false_elim in Hx as [Hx _].
  rewrite String.eqb_sym, Hx. now apply IH.
Qed.

Lemma define_all_distinct (m : list (string * value)) :
  distinct (map fst m) = true -> define_all m = m.
Proof.
  unfold define_all.
  enough (H : forall l acc, distinct (map fst (acc ++ l)) = true ->
            fold_left (fun m kv => define (fst kv) (snd kv) m) l acc
            = (acc ++ l)%list) by (intros Hd; now apply (H m [])).
  induction l as [|[k v] l IH]; intros acc Hd; simpl.
  - now rewrite List.app_nil_r.
  - rewrite define_fresh.
    + rewrite IH; rewrite <- List.app_assoc; [reflexivity | exact Hd].
    + rewrite map_app in Hd. simpl in Hd. now apply distinct_middle in Hd.
Qed.

(** Dispatch on the first character. *)

Lemma starts_value_number (c : ascii) :
  is_digit c || Ascii.eqb c "-" = true -> starts_value c = true.
Proof. each_char c; intros H; try reflexivity; discriminate H. Qed.

Lemma stringify_first (v : value) :
  exists c r, stringify v = String c r /\ starts_value c = true.
Proof.
  destruct v as [|[|]|n|s|l|m]; simpl; try (eexists; eexists; split; reflexivity).
  unfold Number_toString.
  destruct (to_uint_canonical (Z.abs_N n)) as (c & r & Hs & Hd & _).
  destruct (n <? 0)%Z.
  - eexists; eexists; split; reflexivity.
  - exists c, r. split; [exact Hs|]. apply starts_value_number.
    now rewrite Hd.
Qed.

Lemma parse_value_number (f : nat) (c : ascii) (r : string) :
  is_digit c || Ascii.eqb c "-" = true ->
  parse_value (S f) (String c r) =
  match parse_number (String c r) with
  | Some (n, rest) => Some (Number n, rest)
  | None => None
  end.
Proof. each_char c; intros H; try discriminate H; reflexivity. Qed.

Lemma parse_value_array (f : nat) (c : ascii) (r : string) :
  starts_value c = true ->
  parse_value (S f) (String "[" (String c r)) =
  match parse_elements f (String c r) with
  | Some (l, rest) => Some (Array l, rest)
  | None => None
  end.
Proof. each_char c; intros H; try discriminate H; reflexivity. Qed.

Lemma quote_append (s rest : string) :
  QuoteJSONString s ++ rest =
  String quotation_mark (escape_all s ++ String quotation_mark rest).
Proof. unfold QuoteJSONString. simpl. now rewrite append_assoc. Qed.

Lemma elements_text_cons (e : value) (l : list value) (x : string) :
  elements_text (e :: l) ++ x =
  stringify e ++ match l with
                 | [] => x
                 | _ :: _ => String "," (elements_text l ++ x)
                 end.
Proof.
  unfold elements_text. destruct l as [|e2 l]; simpl.
  - reflexivity.
  - now rewrite append_assoc.
Qed.

Lemma member_text_append (k : string) (v : value) (x : string) :
  member_text stringify (k, v) ++ x =
  String quotation_mark
    (escape_all k ++ String quotation_mark (String ":" (stringify v ++ x))).
Proof.
  unfold member_text. cbn [fst snd].
  rewrite append_assoc, quote_append. reflexivity.
Qed.

Lemma members_text_cons (k : string) (v : value)
    (m : list (string * value)) (x : string) :
  members_text ((k, v) :: m) ++ x =
  String quotation_mark
    (escape_all k ++
     String quotation_mark
       (String ":"
          (stringify v ++ match m with
                          | [] => x
                          | _ :: _ => String "," (members_text m ++ x)
                          end))).
Proof.
  destruct m as [|kv m].
  - change (members_text [(k, v)]) with (member_text stringify (k, v)).
    apply member_text_append.
  - change (members_text ((k, v) :: kv :: m))
      with (member_text stringify (k, v) ++ "," ++ members_text (kv :: m)).
    rewrite append_assoc, member_text_append. reflexivity.
Qed.

Lemma Number_toString_first (n : Z) :
  exists c r, Number_toString n = String c r /\
              is_digit c || Ascii.eqb c "-" = true.
Proof.
  unfold Number_toString.
  destruct (to_uint_canonical (Z.abs_N n)) as (c & r & Hs & Hd & _).
  destruct (n <? 0)%Z.
  - eexists; eexists; split; reflexivity.
  - exists c, r. split; [exact Hs | now rewrite Hd].
Qed.

Lemma parse_value_text (f : nat) (r : string) :
  parse_value (S f) (String quotation_mark r) =
  match parse_characters r with
  | Some (x, rest) => Some (Text x, rest)
  | None => None
  end.
Proof. reflexivity. Qed.

Lemma parse_value_object (f : nat) (r : string) :
  parse_value (S f) (String "{" (String quotation_mark r)) =
  match parse_members f (String quotation_mark r) with
  | Some (m, rest) => Some (Object (define_all m), rest)
  | None => None
  end.
Proof. reflexivity. Qed.

Lemma parse_elements_S (f : nat) (s : string) :
  parse_elements (S f) s =
  match parse_value f s with
  | Some (v, rest) =>
      match skip_whitespace rest with
      | String c r =>
          if Ascii.eqb c "," then
            match parse_elements f r with
            | Some (l, rest') => Some (v :: l, rest')
            | None => None
            end
          else if Ascii.eqb c "]" then Some ([v], r)
          else None
      | EmptyString => None
      end
  | None => None
  end.
Proof. reflexivity. Qed.

Lemma parse_members_S (f : nat) (k rest : string) :
  parse_members (S f)
    (String quotation_mark
       (escape_all k ++ String quotation_mark (String ":" rest))) =
  match parse_value f rest with
  | Some (v, r3) =>
      match skip_whitespace r3 with
      | String c' r4 =>
          if Ascii.eqb c' "," then
            match parse_members f r4 with
            | Some (m, rest) => Some ((k, v) :: m, rest)
            | None => None
            end
          else if Ascii.eqb c' "}" then Some ([(k, v)], r4)
          else None
      | EmptyString => None
      end
  | None => None
  end.
Proof.
  change (parse_members (S f) (String quotation_mark ?r))
    with (match parse_characters r with
          | Some (k, r1) =>
              match skip_whitespace r1 with
              | String c r2 =>
                  if Ascii.eqb c ":" then
                    match parse_value f r2 with
                    | Some (v, r3) =>
                        match skip_whitespace r3 with
                        | String c' r4 =>
                            if Ascii.eqb c' "," then
                              match parse_members f r4 with
                              | Some (m, rest) => Some ((k, v) :: m, rest)
                              | None => None
                              end
                            else if Ascii.eqb c' "}" then Some ([(k, v)], r4)
                            else None
                        | EmptyString => None
                        end
                    | None => None
                    end
                  else None
              | EmptyString => None
              end
          | None => None
          end).
  rewrite parse_characters_quoted. reflexivity.
Qed.

Section Descent.

Variable F : nat.
Hypothesis IH : forall f, (f < F)%nat -> forall v rest,
  (fuel_of v <= f)%nat -> representable v = true -> ends_number rest = true ->
  parse_value f (stringify v ++ rest) = Some (v, rest).

Lemma parse_elements_text (l : list value) :
  forall f rest, (f < F)%nat -> l <> [] ->
  (elements_fuel l <= f)%nat -> forallb representable l = true ->
  parse_elements f (elements_text l ++ String "]" rest) = Some (l, rest).
Proof.
  induction l as [|e l IHl]; intros f rest Hf Hne Hw Hwf; [contradiction|].
  cbn [elements_fuel fold_right] in Hw. fold (elements_fuel l) in Hw.
  cbn [forallb] in Hwf. apply andb_prop in Hwf as [Hwe Hwl].
  destruct f as [|f0]; [lia|].
  rewrite elements_text_cons, parse_elements_S.
  destruct l as [|e2 l'].
  - rewrite IH by (try lia; auto). reflexivity.
  - remember (elements_text (e2 :: l') ++ String "]" rest) as x eqn:Ex.
    rewrite IH by (try lia; auto). simpl. subst x.
    rewrite IHl by (try lia; auto; discriminate). reflexivity.
Qed.

Lemma parse_members_text (m : list (string * value)) :
  forall f rest, (f < F)%nat -> m <> [] ->
  (members_fuel m <= f)%nat ->
  forallb (fun kv => representable (snd kv)) m = true ->
  parse_members f (members_text m ++ String "}" rest) = Some (m, rest).
Proof.
  induction m as [|[k v] m IHm]; intros f rest Hf Hne Hw Hwf; [contradiction|].
  cbn [members_fuel fold_right snd] in Hw. fold (members_fuel m) in Hw.
  cbn [forallb snd] in Hwf. apply andb_prop in Hwf as [Hwe Hwl].
  destruct f as [|f0]; [lia|].
  rewrite members_text_cons, parse_members_S.
  destruct m as [|kv m'].
  - rewrite IH by (try lia; auto). reflexivity.
  - remember (members_text (kv :: m') ++ String "}" rest) as x eqn:Ex.
    rewrite IH by (try lia; auto). simpl. subst x.
    rewrite IHm by (try lia; auto; discriminate). reflexivity.
Qed.

End Descent.

Lemma parse_value_stringify (fuel : nat) :
  forall v rest,
  (fuel_of v <= fuel)%nat -> representable v = true -> ends_number rest = true ->
  parse_value fuel (stringify v ++ rest) = Some (v, rest).
Proof.
  induction fuel as [fuel IH] using lt_wf_ind. intros v rest Hw Hwf He.
  destruct fuel as [|f]; [destruct v; simpl in Hw; lia|].
  destruct v as [|[|]|n|s|l|m].
  - reflexivity.
  - reflexivity.
  - reflexivity.
  - cbn [stringify].
    destruct (Number_toString_first n) as (c & r & E & Hc).
    pose proof (parse_number_toString n rest He) as Hn.
    rewrite E in *. cbn [append] in *.
    rewrite parse_value_number by exact Hc. now rewrite Hn.
  - cbn [stringify]. rewrite quote_append, parse_value_text.
    now rewrite parse_characters_quoted.
  - change (stringify (Array l) ++ rest)
      with (String "[" ((elements_text l ++ "]") ++ rest)).
    rewrite append_assoc.
    change ("]" ++ rest) with (String "]" rest).
    destruct l as [|e l']; [reflexivity|].
    pose proof (parse_elements_text (S f) IH (e :: l') f rest) as Hl.
    rewrite elements_text_cons in *.
    destruct (stringify_first e) as (c & r & E & Hc). rewrite E in *.
    cbn [append] in *. rewrite parse_value_array by exact Hc.
    rewrite Hl; [reflexivity | lia | discriminate | | exact Hwf].
    change (S (elements_fuel (e :: l')) <= S f)%nat in Hw. lia.
  - change (stringify (Object m) ++ rest)
      with (String "{" ((members_text m ++ "}") ++ rest)).
    rewrite append_assoc.
    change ("}" ++ rest) with (String "}" rest).
    destruct m as [|[k v] m']; [reflexivity|].
    pose proof (parse_members_text (S f) IH ((k, v) :: m') f rest) as Hm.
    cbn [representable] in Hwf. apply andb_prop in Hwf as [Hd Hwf].
    rewrite members_text_cons in *. rewrite parse_value_object.
    rewrite Hm; [| lia | discriminate | | exact Hwf].
    + now rewrite (define_all_distinct _ Hd).
    + change (S (members_fuel ((k, v) :: m')) <= S f)%nat in Hw. lia.
Qed.

(** The text is long enough to be the fuel. *)

Lemma elements_fuel_In (e : value) (l : list value) :
  In e l -> (fuel_of e < elements_fuel l)%nat.
Proof.
  induction l as [|x l IH]; simpl; [intros []|].
  intros [->|H]; [lia|]. apply IH in H. lia.
Qed.

Lemma members_fuel_In (kv : string * value) (m : list (string * value)) :
  In kv m -> (fuel_of (snd kv) < members_fuel m)%nat.
Proof.
  induction m as [|x m IH]; simpl; [intros []|].
  intros [->|H]; [lia|]. apply IH in H. lia.
Qed.

Lemma elements_fuel_length (l : list value) :
  Forall (fun e => fuel_of e <= String.length (stringify e))%nat l ->
  (elements_fuel l <= String.length (elements_text l) + 1)%nat.
Proof.
  induction 1 as [|e l He _ IH]; [simpl; lia|].
  cbn [elements_fuel fold_right]. fold (elements_fuel l).
  rewrite <- (append_nil_r (elements_text (e :: l))), elements_text_cons.
  rewrite length_append.
  destruct l as [|e2 l']; simpl in *; [lia|].
  rewrite append_nil_r. lia.
Qed.

Lemma members_fuel_length (m : list (string * value)) :
  Forall (fun kv => fuel_of (snd kv) <= String.length (stringify (snd kv)))%nat m ->
  (members_fuel m <= String.length (members_text m) + 1)%nat.
Proof.
  induction 1 as [|[k v] m He _ IH]; [simpl; lia|].
  cbn [members_fuel fold_right snd] in *. fold (members_fuel m).
  rewrite <- (append_nil_r (members_text ((k, v) :: m))), members_text_cons.
  cbn [String.length]. rewrite length_append. cbn [String.length].
  rewrite length_append.
  destruct m as [|kv m']; simpl in *; [lia|].
  rewrite append_nil_r. lia.
Qed.

Lemma fuel_of_length (v : value) :
  (fuel_of v <= String.length (stringify v))%nat.
Proof.
  remember (fuel_of v) as n eqn:En.
  assert (Hn : (fuel_of v <= n)%nat) by lia. rewrite En. clear En.
  revert v Hn. induction n as [n IH] using lt_wf_ind. intros v Hn.
  destruct v as [|[|]|z|s|l|m]; try (simpl; lia).
  - destruct (Number_toString_first z) as (c & r & E & _).
    cbn [stringify fuel_of]. rewrite E. simpl. lia.
  - change (fuel_of (Array l)) with (S (elements_fuel l)) in *.
    change (stringify (Array l)) with (String "[" (elements_text l ++ "]")).
    cbn [String.length]. rewrite length_append. simpl String.length.
    enough (elements_fuel l <= String.length (elements_text l) + 1)%nat by lia.
    apply elements_fuel_length, Forall_forall. intros e He.
    apply elements_fuel_In in He. apply (IH (fuel_of e)); lia.
  - change (fuel_of (Object m)) with (S (members_fuel m)) in *.
    change (stringify (Object m)) with (String "{" (members_text m ++ "}")).
    cbn [String.length]. rewrite length_append. simpl String.length.
    enough (members_fuel m <= String.length (members_text m) + 1)%nat by lia.
    apply members_fuel_length, Forall_forall. intros kv He.
    apply members_fuel_In in He. apply (IH (fuel_of (snd kv))); lia.
Qed.

Lemma parse_stringify (v : value) :
  representable v = true -> parse (stringify v) = Some v.
Proof.
  intros Hwf. unfold parse.
  pose proof (parse_value_stringify (String.length (stringify v)) v ""
                (fuel_of_length v) Hwf eq_refl) as H.
  rewrite append_nil_r in H. now rewrite H.
Qed.

End JSONFacts.

(** ** Round trip *)

(** X16: the round trip on the values of this model.  For every value [v]
    made of booleans, safe integers, strings of code units below 256,
    arrays and objects of distinct keys (and [null] inside them), and every
    prototype [proto], [fromJSON(proto, getJSON(v))] returns a value with
    the same data fields as [v]; when [v] is an object or an array, the
    result is [v]'s fields with [proto] as prototype.  Numbers with a
    fraction or beyond the safe integers, and strings with code units from
    256 on, are not values of the model. *)
Theorem fromJSON_getJSON (prototype : Type) (proto : prototype) (v : JSON.value) :
  JSON.representable v = true ->
  v <> JSON.Null ->
  exists r, fromJSON proto (getJSON v) = inr r /\
            data r = v /\
            (structured v = true -> r = Instance proto v).
Proof.
  intros Hwf Hnull. unfold fromJSON, getJSON.
  rewrite (JSONFacts.parse_stringify v Hwf).
  destruct v; try contradiction; simpl; eexists;
    (split; [reflexivity | split; [reflexivity | ]]);
    try discriminate; reflexivity.
Qed.

Lemma fromJSON_getJSON_witness :
  JSON.representable circle = true /\
  circle <> JSON.Null /\
  getJSON circle =
    "{" ++ dquote ++ "radius" ++ dquote ++ ":10," ++
    dquote ++ "tags" ++ dquote ++ ":[" ++
      dquote ++ "a" ++ dquote ++ "," ++ dquote ++ "b" ++ dquote ++ "]," ++
    dquote ++ "centre" ++ dquote ++ ":{" ++
      dquote ++ "x" ++ dquote ++ ":-1," ++ dquote ++ "y" ++ dquote ++ ":0}}" /\
  exists r, fromJSON "Circle.prototype" (getJSON circle) = inr r /\
            data r = circle /\
            (structured circle = true -> r = Instance "Circle.prototype" circle).
Proof.
  split; [reflexivity|]. split; [discriminate|]. split; [reflexivity|].
  apply (fromJSON_getJSON string "Circle.prototype" circle);
    [reflexivity | discriminate].
Defined.

(** * Further properties of the builder *)

(** ** Which simple selectors are accepted *)

Lemma chain_append (cs1 cs2 : list call) (s : builder) :
  chain (cs1 ++ cs2) s =
  match chain cs1 s with
  | Return _ s' => chain cs2 s'
  | Throw msg s' => Throw msg s'
  end.
Proof.
  revert s. induction cs1 as [|c cs1 IH]; intros s; simpl.
  - reflexivity.
  - unfold bind. destruct (perform c s) as [[] s'|msg s']; [apply IH | reflexivity].
Qed.

Lemma consistent_chain (cs : list call) (s s' : builder) :
  consistent s -> chain cs s = Return tt s' -> consistent s'.
Proof.
  revert s. induction cs as [|c cs IH]; intros s Hs Hc.
  - now injection Hc as <-.
  - rewrite chain_cons in Hc.
    destruct (perform c s) as [[] s1|] eqn:Hp; [|discriminate].
    apply (IH s1); [|exact Hc].
    replace s1 with (after (Call c) s) by (simpl; now rewrite Hp).
    now apply consistent_after.
Qed.

Lemma Sorted_middle (l r : list Z) (x : Z) :
  Sorted Z.le (l ++ x :: r) -> js_gt (last_entry l) x = false.
Proof.
  destruct l as [|y l _] using rev_ind; [reflexivity|].
  rewrite last_entry_push. simpl. rewrite <- List.app_assoc. simpl.
  induction l as [|a l IH]; simpl; intros H.
  - inversion H as [|? ? _ Hhd]; subst. inversion Hhd; subst.
    apply Z.ltb_ge. assumption.
  - inversion H; subst. now apply IH.
Qed.

Lemma count_occ_In_middle (l r : list Z) (x : Z) :
  In x l -> (2 <= count_occ Z.eq_dec (l ++ x :: r) x)%nat.
Proof.
  intros H. rewrite count_occ_app, count_occ_cons_eq by reflexivity.
  apply (count_occ_In Z.eq_dec) in H. lia.
Qed.

Lemma accept_order (c : call) (s : builder) :
  is_element c = false -> order (accept c s) = (order s ++ [rank c])%list.
Proof. destruct c; try discriminate; reflexivity. Qed.

(** From a state of the builder, a chain of fragment calls other than
    [element] returns exactly when the ranks recorded, followed by the
    ranks of the calls, are in non-decreasing order with at most one id
    and at most one pseudo-element. *)
Lemma fragments_accepted_iff (cs : list call) :
  fragment_calls cs = true ->
  forall s, consistent s ->
  (exists s', chain cs s = Return tt s') <->
  Sorted Z.le (order s ++ map rank cs) /\
  (count_occ Z.eq_dec (order s ++ map rank cs) 1%Z <= 1)%nat /\
  (count_occ Z.eq_dec (order s ++ map rank cs) 5%Z <= 1)%nat.
Proof.
  intros Hf s Hs. split.
  - intros (s' & Hc).
    destruct (chain_fragments cs s s' Hf Hc) as (Ho & _ & _).
    destruct (consistent_chain cs s s' Hs Hc) as [H1 _ _ _ _ H2 H3 _].
    rewrite Ho in *. auto.
  - revert s Hs. induction cs as [|c cs IH]; intros s Hs (Ho & H1 & H5).
    + now exists s.
    + simpl in Hf. apply andb_prop in Hf as [Hc Hf].
      apply negb_true_iff in Hc. simpl in Ho, H1, H5.
      assert (Hv : once_violation c s = false).
      { destruct Hs as [_ _ Hi Hp _ _ _ _].
        destruct c; try reflexivity; try discriminate; simpl.
        - destruct (idCheck s) eqn:E; [|reflexivity].
          pose proof (count_occ_In_middle _ (map rank cs) _ (proj1 Hi eq_refl)).
          cbn [rank] in *. exfalso. lia.
        - destruct (pseudoElementCheck s) eqn:E; [|reflexivity].
          pose proof (count_occ_In_middle _ (map rank cs) _ (proj1 Hp eq_refl)).
          cbn [rank] in *. exfalso. lia. }
      assert (Hp : order (prepare c s) = order s)
        by (destruct c; try discriminate; reflexivity).
      assert (Hg : js_gt (last_entry (order (prepare c s))) (rank c) = false)
        by (rewrite Hp; now apply (Sorted_middle _ (map rank cs))).
      rewrite chain_cons, perform_eq, Hv, Hg.
      apply IH; [exact Hf | now apply consistent_accept |].
      rewrite (accept_order c s Hc), <- !List.app_assoc. simpl. auto.
Qed.

(** X1: on the fresh builder, a simple selector (no [element] call after
    the first position) is accepted exactly when the ranks of its calls
    are in non-decreasing order and it has at most one id and at most one
    pseudo-element. *)
Theorem simple_selector_accepted_iff (cs : list call) :
  simple cs = true ->
  (accepted cs = true <->
   Sorted Z.le (map rank cs) /\
   (count_occ Z.eq_dec (map rank cs) 1%Z <= 1)%nat /\
   (count_occ Z.eq_dec (map rank cs) 5%Z <= 1)%nat).
Proof.
  intros Hs.
  assert (Ha : accepted cs = true <->
               exists s', chain cs cssSelectorBuilder = Return tt s').
  { unfold accepted. destruct (chain cs cssSelectorBuilder) as [[] s'|]; split;
      try discriminate; eauto. intros (s' & H). discriminate. }
  rewrite Ha. clear Ha.
  destruct cs as [|c cs]; [split; [intros _; simpl; auto | now exists cssSelectorBuilder]|].
  simpl in Hs. destruct (is_element c) eqn:Hc.
  - destruct c as [v| | | | |]; try discriminate.
    rewrite chain_cons.
    change (perform (Element v) cssSelectorBuilder)
      with (Return tt (after (Call (Element v)) cssSelectorBuilder)).
    rewrite (fragments_accepted_iff cs Hs)
      by (apply consistent_after, consistent_init).
    reflexivity.
  - apply (fragments_accepted_iff (c :: cs)); [|apply consistent_init].
    simpl. now rewrite Hc.
Qed.

Lemma simple_selector_accepted_iff_witness :
  simple [Element "a"; Attr "href"; PseudoClass "focus"; PseudoClass "hover";
          PseudoElement "after"] = true /\
  accepted [Element "a"; Attr "href"; PseudoClass "focus"; PseudoClass "hover";
            PseudoElement "after"] = true.
Proof.
  split; [reflexivity|].
  apply (simple_selector_accepted_iff
           [Element "a"; Attr "href"; PseudoClass "focus"; PseudoClass "hover";
            PseudoElement "after"]); [reflexivity|].
  simpl. repeat split; try lia. repeat constructor; lia.
Defined.

(** X2: [class], [attr] and [pseudoClass] test the rank only: each of
    them returns exactly when no greater rank is recorded last, and once
    one of them has returned, a call of the same kind returns again,
    whatever its value. *)
Theorem repeatable_kinds (c : call) (s : builder) :
  repeatable c = true ->
  ((exists s', perform c s = Return tt s') <->
   js_gt (last_entry (order s)) (rank c) = false) /\
  (forall s' c', perform c s = Return tt s' -> repeatable c' = true ->
     rank c' = rank c ->
     perform c' s' = Return tt (accept c' s')).
Proof.
  intros Hc.
  assert (Hc0 : forall (c0 : call) s0, repeatable c0 = true ->
            once_violation c0 s0 = false /\ prepare c0 s0 = s0)
    by (intros [] s0 H; try discriminate H; auto).
  destruct (Hc0 c s Hc) as [Hv Hp].
  rewrite perform_eq, Hv, Hp. split.
  - destruct (js_gt _ _); split; try discriminate; eauto.
    intros (s' & H). discriminate.
  - intros s' c' Hr Hc' Hk.
    destruct (js_gt _ _); [discriminate|]. injection Hr as <-.
    destruct (Hc0 c' (accept c s) Hc') as [Hv' Hp'].
    rewrite perform_eq, Hv', Hp'. unfold accept at 1. simpl.
    rewrite Hp, last_entry_push, Hk. simpl. now rewrite Z.ltb_irrefl.
Qed.

Lemma repeatable_kinds_witness :
  repeatable (ClassName "x") = true /\
  perform (ClassName "a") after_class
    = Return tt (accept (ClassName "a") after_class).
Proof.
  split; [reflexivity|].
  destruct (repeatable_kinds (ClassName "x") cssSelectorBuilder eq_refl)
    as [_ H].
  apply H; reflexivity.
Defined.

(** ** What [build] and [order] hold *)

Lemma current_push (cs : list call) (c : call) :
  current (cs ++ [c]) = if is_element c then [c] else (current cs ++ [c])%list.
Proof.
  induction cs as [|c0 cs IH]; simpl.
  - now destruct (is_element c).
  - rewrite existsb_app. simpl. rewrite orb_false_r, IH.
    destruct (is_element c); [now rewrite orb_true_r|].
    rewrite orb_false_r. now destruct (existsb is_element cs).
Qed.

Lemma simple_current (cs : list call) : simple (current cs) = true.
Proof.
  induction cs as [|c cs IH]; [reflexivity|]. simpl.
  destruct (existsb is_element cs) eqn:E; [exact IH|]. simpl.
  clear IH. induction cs as [|c0 cs IH]; [reflexivity|].
  simpl in *. apply orb_false_elim in E as [-> E]. now rewrite IH.
Qed.

(** The calls of a chain that returns, from the last [element] call on,
    are what [build] and [order] hold. *)
Lemma chain_current (cs : list call) :
  forall s, chain cs cssSelectorBuilder = Return tt s ->
  build s = map text (current cs) /\ order s = map rank (current cs).
Proof.
  induction cs as [|c cs IH] using rev_ind; intros s Hc.
  - injection Hc as <-. auto.
  - rewrite chain_append in Hc.
    destruct (chain cs cssSelectorBuilder) as [[] s1|]; [|discriminate].
    destruct (IH s1 eq_refl) as [Hb Ho].
    rewrite chain_cons in Hc.
    destruct (perform c s1) as [[] s2|] eqn:Hp; [|discriminate].
    injection Hc as <-. rewrite perform_eq in Hp.
    destruct (once_violation c s1) eqn:Hv; [discriminate|].
    destruct (js_gt _ _); [discriminate|]. injection Hp as <-.
    rewrite current_push. unfold accept. simpl.
    destruct (is_element c) eqn:He.
    + destruct c as [v| | | | |]; try discriminate. simpl in *.
      destruct (build s1) as [|x [|y b]] eqn:Eb; try discriminate.
      * rewrite Eb, Ho. destruct (current cs); [auto | discriminate].
      * auto.
    + assert (Hp : build (prepare c s1) = build s1 /\
                   order (prepare c s1) = order s1)
        by (destruct c; try discriminate; auto).
      destruct Hp as [-> ->]. now rewrite Hb, Ho, !map_app.
Qed.

Lemma replay_chain (us : list use) :
  forall s cs, chain cs cssSelectorBuilder = Return tt s ->
  chain (snd (replay us s cs)) cssSelectorBuilder
  = Return tt (fst (replay us s cs)).
Proof.
  induction us as [|[c|] us IH]; intros s cs Hc; simpl.
  - exact Hc.
  - destruct (perform c s) as [[] s'|msg s'] eqn:Hp.
    + apply IH. rewrite chain_append, Hc, chain_cons, Hp. reflexivity.
    + apply IH. now destruct (perform_throw c s msg s' Hp) as [-> _].
  - now apply IH.
Qed.

(** X3: as long as [combine] is not used, whatever fragment calls and
    [stringify] calls are made, in whatever order and whether they return
    or throw: let [cs] be the calls that returned since the builder was
    last emptied (by a throw or by [stringify]).  The state of the builder
    is the one these calls alone give on the fresh builder; [build] holds
    the texts and [order] the ranks, position by position, of the calls of
    [cs] from its last [element] call on (of all of [cs] when there is
    none after the first call), which form one simple selector; and
    [stringify] returns exactly these texts appended in call order. *)
Theorem build_is_current_selector (us : list use) :
  let s := fst (replay us cssSelectorBuilder []) in
  let cs := snd (replay us cssSelectorBuilder []) in
  chain cs cssSelectorBuilder = Return tt s /\
  simple (current cs) = true /\
  build s = map text (current cs) /\
  order s = map rank (current cs) /\
  stringify s = Return (fold_right append "" (map text (current cs)))
                       cssSelectorBuilder.
Proof.
  intros s cs.
  assert (Hc : chain cs cssSelectorBuilder = Return tt s)
    by (apply replay_chain; reflexivity).
  destruct (chain_current cs s Hc) as [Hb Ho].
  split; [exact Hc|]. split; [apply simple_current|].
  split; [exact Hb|]. split; [exact Ho|].
  now rewrite stringify_eq, join_fold, Hb.
Qed.

Lemma build_is_current_selector_witness :
  replay [Fragment (ClassName "lost"); Fragment (Id "thrown");
          Fragment (Element "div"); Fragment (ClassName "a");
          Fragment (Element "p"); Fragment (ClassName "q")]
         cssSelectorBuilder []
  = ({| idCheck := false; pseudoElementCheck := false; order := [0; 2]%Z;
        combo := ["div.a"]; build := ["p"; ".q"] |},
     [Element "div"; ClassName "a"; Element "p"; ClassName "q"]) /\
  stringify
    (fst (replay [Fragment (ClassName "lost"); Fragment (Id "thrown");
                  Fragment (Element "div"); Fragment (ClassName "a");
                  Fragment (Element "p"); Fragment (ClassName "q")]
                 cssSelectorBuilder []))
  = Return "p.q" cssSelectorBuilder.
Proof.
  split; [reflexivity|].
  apply (build_is_current_selector
           [Fragment (ClassName "lost"); Fragment (Id "thrown");
            Fragment (Element "div"); Fragment (ClassName "a");
            Fragment (Element "p"); Fragment (ClassName "q")]).
Defined.

(** ** Several simple selectors on the one builder *)

(** X4: [stringify] returns the last simple selector only.  When a simple
    selector of two fragments or more is followed on the same builder by
    another one, the first is stashed on [combo], and [stringify] returns
    the text of the second and throws the stashed text away. *)
Theorem stringify_drops_stashed (l r : list call) :
  operand l = true -> (2 <= length l)%nat -> operand r = true ->
  (s <- (chain l ;; get) ;; chain r ;; s' <- get ;;
   text' <- stringify ;; ret (build s, combo s', text')) cssSelectorBuilder
  = Return (map text l, [join (map text l)], join (map text r))
           cssSelectorBuilder.
Proof.
  intros Hl Hn Hr.
  destruct (operand_ready l cssSelectorBuilder Hl ready_init)
    as (s0 & _ & Hc & Hb).
  set (s1 := set_combo (stash cssSelectorBuilder) s0) in *.
  assert (Hb1 : build s1 = map text l) by exact Hb.
  assert (Hk1 : combo s1 = []) by reflexivity.
  destruct (operand_ready r s1 Hr (operand_length_ready l s1 Hb1 Hn))
    as (r0 & _ & Hc' & Hb').
  unfold bind, get. rewrite Hc, Hc'. simpl.
  rewrite Hb', Hb. unfold stash. rewrite Hb1, Hk1.
  destruct l; [simpl in Hn; lia | reflexivity].
Qed.

Lemma stringify_drops_stashed_witness :
  operand [Element "div"; Id "a"] = true /\
  operand [Element "p"] = true /\
  (s <- (chain [Element "div"; Id "a"] ;; get) ;; chain [Element "p"] ;;
   s' <- get ;; text' <- stringify ;; ret (build s, combo s', text'))
    cssSelectorBuilder
  = Return (["div"; "#a"], ["div#a"], "p") cssSelectorBuilder.
Proof.
  split; [reflexivity|]. split; [reflexivity|].
  apply (stringify_drops_stashed [Element "div"; Id "a"] [Element "p"]);
    [reflexivity | apply le_n | reflexivity].
Defined.




(** X7: the result of [combine] cannot be the left operand of another
    [combine] whose right operand starts with [element]: [combine] leaves
    one entry in [build], so that [element] call throws and empties the
    builder.  Nesting works on the right only. *)
Theorem combine_result_not_left_operand
    (l1 : selector) (c1 : string) (r1 : selector) (d v : string)
    (r : list call) (s s' : builder) :
  eval (Combine l1 c1 r1) s = Return tt s' ->
  length (build s') = 1%nat /\
  eval (Combine (Combine l1 c1 r1) d (Chain (Element v :: r))) s
  = Throw msg_once cssSelectorBuilder.
Proof.
  intros He.
  assert (Hb : length (build s') = 1%nat).
  { simpl in He. unfold bind in He.
    destruct (eval l1 s) as [[] s1|]; [|discriminate].
    destruct (eval r1 s1) as [[] s2|]; [|discriminate].
    rewrite combine_eq in He. now injection He as <-. }
  split; [exact Hb|].
  change (eval (Combine (Combine l1 c1 r1) d (Chain (Element v :: r))) s)
    with (bind (eval (Combine l1 c1 r1))
            (fun _ => bind (chain (Element v :: r)) (fun _ => combine d)) s).
  unfold bind at 1. rewrite He. unfold bind at 1. rewrite chain_cons.
  change (perform (Element v) s') with (element v s').
  change (element v s') with (perform (Element v) s').
  rewrite perform_eq. simpl. now rewrite Hb.
Qed.

Lemma combine_result_not_left_operand_witness :
  eval (Combine (Combine (Chain [Element "a"; Id "x"]) "+"
                         (Chain [Element "b"])) ">"
                (Chain [Element "c"])) cssSelectorBuilder
  = Throw msg_once cssSelectorBuilder.
Proof.
  apply (combine_result_not_left_operand
           (Chain [Element "a"; Id "x"]) "+" (Chain [Element "b"]) ">" "c" []
           cssSelectorBuilder
           {| idCheck := false; pseudoElementCheck := false; order := [0%Z];
              combo := []; build := ["a#x + b"] |}).
  reflexivity.
Defined.

(** ** [combine] on three different objects *)

(** On three different builder objects, [combine] takes its left text
    from the pending stack of its third argument and its right text from
    the fragments of its first argument.  The first argument is left as it
    is, the third loses the popped segment, and the receiver gets the one
    joined string as [build], keeping its own ranks, flags and pending
    stack. *)
Theorem combine_in_distinct
    (this selector1 selector2 : loc) (c : string) (h : store) :
  this <> selector1 -> this <> selector2 -> selector1 <> selector2 ->
  let h' := combine_in this selector1 c selector2 h in
  build (h' this) =
    [tmpl (last_entry (combo (h selector2))) ++ " " ++ c ++ " " ++
     join (build (h selector1))] /\
  h' this = set_build (build (h' this)) (h this) /\
  h' selector1 = h selector1 /\
  h' selector2 = set_combo (snd (pop (combo (h selector2)))) (h selector2) /\
  (forall l, l <> this -> l <> selector2 -> h' l = h l).
Proof.
  intros H1 H2 H3 h'. subst h'. unfold combine_in, last_entry.
  destruct (pop (combo (h selector2))) as [x rest]. unfold upd. simpl.
  rewrite !Nat.eqb_refl.
  apply Nat.eqb_neq in H1 as E1. apply Nat.eqb_neq in H2 as E2.
  apply Nat.eqb_neq in H3 as E3.
  rewrite E2, E3. rewrite (Nat.eqb_sym selector1 this), E1.
  rewrite (Nat.eqb_sym selector2 this), E2. simpl.
  repeat split.
  intros l Hl Hl2. apply Nat.eqb_neq in Hl, Hl2. now rewrite Hl, Hl2.
Qed.

Lemma combine_in_distinct_witness :
  build
    (combine_in 0%nat 1%nat "+" 2%nat
       (fun l => match l with
                 | 1%nat => set_build ["a"; "#x"] cssSelectorBuilder
                 | 2%nat => set_combo ["b.y"] cssSelectorBuilder
                 | _ => cssSelectorBuilder
                 end) 0%nat)
  = ["b.y + a#x"].
Proof.
  apply (combine_in_distinct 0%nat 1%nat 2%nat "+"); discriminate.
Defined.

(** ** [inOrder] on a name that is not a kind *)

Lemma indexOf_from_absent (el : string) (l : list string) (i : Z) :
  ~ In el l -> indexOf_from i el l = (-1)%Z.
Proof.
  revert i. induction l as [|x l IH]; intros i H; simpl; [reflexivity|].
  destruct (String.eqb_spec x el) as [->|_].
  - exfalso. apply H. now left.
  - apply IH. intros Hin. apply H. now right.
Qed.

(** X8: [inOrder] looks its argument up in [weight] with [indexOf].  For a
    name that is not in [weight] (such as ['id'] without the space of
    ['id ']) the position is [-1], and on every state: it throws the
    ordering error and empties the builder exactly when the rank recorded
    last is greater than [-1], and otherwise (no rank recorded, or [-1]
    recorded last by an earlier such call) it records [-1] and returns.
    So it throws in every state with a rank recorded that the fragment
    methods, [stringify] and [combine] lead to, where the ranks are 0 to
    5, and two such calls in a row on the fresh builder both return. *)
Theorem inOrder_unknown_name (el : string) (s : builder) :
  ~ In el weight ->
  inOrder el s =
    (if js_gt (last_entry (order s)) (-1)
     then Throw msg_order cssSelectorBuilder
     else Return tt (set_order (order s ++ [(-1)%Z]) s)) /\
  ((exists msg s', inOrder el s = Throw msg s') <->
   exists r, last_entry (order s) = Some r /\ (-1 < r)%Z) /\
  (reachable s -> order s <> [] ->
   inOrder el s = Throw msg_order cssSelectorBuilder) /\
  (inOrder el ;; inOrder el) cssSelectorBuilder
    = Return tt (set_order [(-1)%Z; (-1)%Z] cssSelectorBuilder).
Proof.
  intros Hel.
  assert (He : forall s0, inOrder el s0 =
            (if js_gt (last_entry (order s0)) (-1)
             then Throw msg_order cssSelectorBuilder
             else Return tt (set_order (order s0 ++ [(-1)%Z]) s0))).
  { intros s0. unfold inOrder, indexOf.
    rewrite (indexOf_from_absent el weight 0 Hel). unfold bind, get, modify.
    destruct (js_gt _ _); reflexivity. }
  split; [apply He|]. split; [|split].
  - rewrite He, <- js_gt_true.
    destruct (js_gt _ _); split; try discriminate; eauto.
    intros (msg & s' & H). discriminate.
  - intros Hr Ho. rewrite He.
    destruct (reachable_consistent s Hr) as [_ Hrk _ _ _ _ _ _].
    destruct (order s) as [|x o _] using rev_ind; [contradiction|].
    rewrite last_entry_push. simpl.
    apply Forall_app in Hrk as [_ Hx]. inversion Hx; subst.
    assert (E : (-1 <? x)%Z = true) by (apply Z.ltb_lt; lia).
    now rewrite E.
  - unfold bind. rewrite He. simpl. rewrite He. reflexivity.
Qed.

Lemma inOrder_unknown_name_witness :
  ~ In "id" weight /\
  reachable after_class /\
  inOrder "id" after_class = Throw msg_order cssSelectorBuilder.
Proof.
  assert (Hn : ~ In "id" weight).
  { simpl. intros [H|[H|[H|[H|[H|[H|[]]]]]]]; discriminate H. }
  assert (Hr : reachable after_class)
    by (apply (reach_step (Call (ClassName "x"))), reach_init).
  split; [exact Hn|]. split; [exact Hr|].
  destruct (inOrder_unknown_name "id" after_class Hn) as (_ & _ & H & _).
  apply H; [exact Hr | discriminate].
Defined.

(** ** Going on after [combine] *)

Lemma combinable_rightmost (e : selector) :
  combinable e = true -> operand (rightmost e) = true.
Proof.
  induction e as [cs|l _ c r IH]; simpl; [auto|].
  destruct l; [|discriminate]. intros H.
  apply andb_prop in H as [_ H]. auto.
Qed.

(** After a combinable expression the builder is as after its last simple
    selector alone, but for [build], which holds the joined string of a
    [combine], and for what was stashed before. *)
Lemma eval_combinable_state (e : selector) :
  combinable e = true ->
  forall s, ready s ->
  eval e s =
  Return tt
    (built e (set_combo (stash s)
                (state_of (chain (rightmost e) cssSelectorBuilder)))).
Proof.
  induction e as [cs|l _ c r IHr]; intros He s Hs.
  - simpl in He. destruct (operand_ready cs s He Hs) as (s0 & H0 & Hc & _).
    simpl. now rewrite H0, Hc.
  - destruct (eval_combinable (Combine l c r) He s Hs) as (s' & Hc & Hb & Hk).
    rewrite Hc. f_equal.
    simpl in He. destruct l as [cs|]; [|discriminate].
    apply andb_prop in He as [He Hr]. apply andb_prop in He as [Ho Hn].
    assert (Hn2 : (2 <= length cs)%nat)
      by (destruct cs as [|? [|? ?]]; [discriminate Hn.. | simpl; lia]).
    destruct (operand_ready cs s Ho Hs) as (s0 & _ & Hc1 & Hb1).
    simpl in Hc. unfold bind in Hc. rewrite Hc1 in Hc.
    rewrite (IHr Hr _ (operand_length_ready cs (set_combo (stash s) s0)
                         Hb1 Hn2)) in Hc.
    rewrite combine_eq in Hc.
    change (rightmost (Combine (Chain cs) c r)) with (rightmost r).
    revert Hc.
    generalize (state_of (chain (rightmost r) cssSelectorBuilder)).
    intros R Hc.
    remember (built r (set_combo (stash (set_combo (stash s) s0)) R)) as X
      eqn:EX.
    injection Hc as <-.
    change (tmpl (fst (pop (combo X))) ++
              String " " (c ++ String " " (join (build X)))
            = render (Combine (Chain cs) c r)) in Hb.
    change (snd (pop (combo X)) = stash s) in Hk.
    rewrite Hb, Hk. subst X.
    destruct r; destruct R; reflexivity.
Qed.

(** X9: a fragment call made on the result of [combine] goes on with the
    right operand.  It is tested against the ranks and flags of the last
    simple selector alone: when that selector followed by the call is
    accepted, the call is accepted and its text is put at the end of the
    combined string; when it is not, the call throws and the combined
    string is lost with the emptied builder. *)
Theorem fragment_after_combine (e : selector) (f : call) :
  combinable e = true ->
  is_element f = false ->
  (accepted (rightmost e ++ [f]) = true ->
   (eval e ;; perform f ;; stringify) cssSelectorBuilder
   = Return (render e ++ text f) cssSelectorBuilder) /\
  (accepted (rightmost e ++ [f]) = false ->
   exists msg, (eval e ;; perform f ;; stringify) cssSelectorBuilder
               = Throw msg cssSelectorBuilder).
Proof.
  intros He Hf.
  destruct (eval_combinable e He cssSelectorBuilder ready_init)
    as (s' & Hc & Hb & _).
  pose proof (eval_combinable_state e He cssSelectorBuilder ready_init) as Hs.
  rewrite Hc in Hs. injection Hs as Hs.
  destruct (operand_ready _ cssSelectorBuilder (combinable_rightmost e He)
              ready_init) as (s0 & H0 & _ & _).
  rewrite H0 in Hs. simpl in Hs.
  assert (Hp : perform f s' =
               match perform f s0 with
               | Return _ _ => Return tt (accept f s')
               | Throw msg _ => Throw msg cssSelectorBuilder
               end).
  { rewrite !perform_eq.
    assert (Hv : once_violation f s' = once_violation f s0 /\
                 order (prepare f s') = order (prepare f s0)).
    { rewrite Hs. destruct s0 as [i p o k b].
      destruct e; destruct f; try discriminate; auto. }
    destruct Hv as [-> ->].
    destruct (once_violation f s0); [reflexivity|].
    destruct (js_gt _ _); reflexivity. }
  assert (Hrun : (eval e ;; perform f ;; stringify) cssSelectorBuilder =
                 match perform f s0 with
                 | Return _ _ =>
                     Return (join (build (accept f s'))) cssSelectorBuilder
                 | Throw msg _ => Throw msg cssSelectorBuilder
                 end).
  { unfold bind. rewrite Hc, Hp.
    destruct (perform f s0) as [[] s1|msg s1]; reflexivity. }
  assert (Hacc : accepted (rightmost e ++ [f]) =
                 match perform f s0 with
                 | Return _ _ => true
                 | Throw _ _ => false
                 end).
  { unfold accepted. rewrite chain_append, H0. simpl. unfold bind, ret.
    destruct (perform f s0) as [[] s1|msg s1]; reflexivity. }
  rewrite Hrun, Hacc.
  destruct (perform f s0) as [[] s1|msg s1]; split; try discriminate; intros _.
  - unfold accept.
    assert (Hbp : build (prepare f s') = build s')
      by (destruct f; try discriminate; reflexivity).
    simpl. rewrite Hbp, join_app, Hb. reflexivity.
  - now exists msg.
Qed.

Lemma fragment_after_combine_witness :
  combinable
    (Combine (Chain [Element "div"; Id "main"]) ">" (Chain [Element "p"])) = true /\
  (eval (Combine (Chain [Element "div"; Id "main"]) ">" (Chain [Element "p"])) ;;
   perform (Id "first") ;; stringify) cssSelectorBuilder
  = Return "div#main > p#first" cssSelectorBuilder.
Proof.
  split; [reflexivity|].
  apply (fragment_after_combine
           (Combine (Chain [Element "div"; Id "main"]) ">" (Chain [Element "p"]))
           (Id "first")); reflexivity.
Defined.

(** * Further properties of the JSON helpers *)

(** X10: [getJSON] is injective on the values of the model: two values
    with the same JSON text are the same value, field for field. *)
Theorem getJSON_injective (v1 v2 : JSON.value) :
  JSON.representable v1 = true ->
  JSON.representable v2 = true ->
  getJSON v1 = getJSON v2 ->
  v1 = v2.
Proof.
  intros H1 H2 E. unfold getJSON in E.
  pose proof (JSONFacts.parse_stringify v1 H1) as P1.
  pose proof (JSONFacts.parse_stringify v2 H2) as P2.
  rewrite E, P2 in P1. now injection P1.
Qed.

Lemma getJSON_injective_witness :
  JSON.representable circle = true /\
  getJSON circle = getJSON circle /\
  circle = circle.
Proof.
  split; [reflexivity|]. split; [reflexivity|].
  apply (getJSON_injective circle circle); reflexivity.
Defined.

Lemma skip_whitespace_prefix (ws s : string) :
  whitespace ws = true ->
  JSON.skip_whitespace (ws ++ s) = JSON.skip_whitespace s.
Proof.
  induction ws as [|c ws IH]; simpl; [reflexivity|].
  intros H. apply andb_prop in H as [Hc H]. rewrite Hc. now apply IH.
Qed.

Lemma skip_whitespace_all (ws : string) :
  whitespace ws = true -> JSON.skip_whitespace ws = "".
Proof.
  intros H. rewrite <- (append_nil_r ws).
  now rewrite (skip_whitespace_prefix ws "" H).
Qed.

Lemma skip_whitespace_idempotent (s : string) :
  JSON.skip_whitespace (JSON.skip_whitespace s) = JSON.skip_whitespace s.
Proof.
  induction s as [|c s IH]; simpl; [reflexivity|].
  destruct (JSON.is_whitespace c) eqn:E; [exact IH|]. simpl. now rewrite E.
Qed.

Lemma parse_value_skips (f : nat) (s : string) :
  JSON.parse_value f (JSON.skip_whitespace s) = JSON.parse_value f s.
Proof.
  destruct f as [|f]; [reflexivity|].
  cbn [JSON.parse_value]. now rewrite skip_whitespace_idempotent.
Qed.

Lemma whitespace_ends_number (ws : string) :
  whitespace ws = true -> JSON.ends_number ws = true.
Proof.
  destruct ws as [|c ws]; [reflexivity|]. simpl.
  intros H. apply andb_prop in H as [Hc _]. revert Hc.
  JSONFacts.each_char c; intros H; try discriminate H; reflexivity.
Qed.

Lemma parse_padded (v : JSON.value) (ws ws' : string) :
  JSON.representable v = true ->
  whitespace ws = true -> whitespace ws' = true ->
  JSON.parse (ws ++ JSON.stringify v ++ ws') = Some v.
Proof.
  intros Hv Hw Hw'. unfold JSON.parse.
  rewrite <- parse_value_skips, skip_whitespace_prefix, parse_value_skips
    by exact Hw.
  rewrite JSONFacts.parse_value_stringify.
  - now rewrite (skip_whitespace_all ws' Hw').
  - pose proof (JSONFacts.fuel_of_length v). rewrite !length_append. lia.
  - exact Hv.
  - now apply whitespace_ends_number.
Qed.

(** X11: [fromJSON] does not see JSON whitespace (space, tab, line feed,
    carriage return) around the text: with any amount of it before and
    after the text of a value, it returns what it returns for the text
    alone. *)
Theorem fromJSON_ignores_whitespace
    (prototype : Type) (proto : prototype) (v : JSON.value) (ws ws' : string) :
  JSON.representable v = true ->
  whitespace ws = true -> whitespace ws' = true ->
  fromJSON proto (ws ++ getJSON v ++ ws') = fromJSON proto (getJSON v) /\
  fromJSON proto (ws ++ getJSON v ++ ws') = setPrototypeOf v proto.
Proof.
  intros Hv Hw Hw'. unfold fromJSON, getJSON.
  rewrite (parse_padded v ws ws' Hv Hw Hw').
  now rewrite (JSONFacts.parse_stringify v Hv).
Qed.

Lemma fromJSON_ignores_whitespace_witness :
  JSON.representable circle = true /\
  whitespace "  " = true /\
  fromJSON "Circle.prototype" ("  " ++ getJSON circle ++ " ")
  = inr (Instance "Circle.prototype" circle).
Proof.
  split; [reflexivity|]. split; [reflexivity|].
  apply (fromJSON_ignores_whitespace string "Circle.prototype" circle "  " " ");
    reflexivity.
Defined.

(** X12: on the empty text, and on a text of whitespace only, [fromJSON]
    throws the [SyntaxError] of [JSON.parse]. *)
Theorem fromJSON_blank
    (prototype : Type) (proto : prototype) (json : string) :
  whitespace json = true ->
  fromJSON proto json = inl SyntaxError.
Proof.
  intros H. unfold fromJSON, JSON.parse.
  rewrite <- parse_value_skips, (skip_whitespace_all json H).
  destruct (String.length json); reflexivity.
Qed.

Lemma fromJSON_blank_witness :
  whitespace "" = true /\
  fromJSON "Circle.prototype" "" = inl SyntaxError.
Proof.
  split; [reflexivity|].
  apply (fromJSON_blank string "Circle.prototype" ""). reflexivity.
Defined.

(** X13: [fromJSON] accepts nothing after the text of a value but
    whitespace: when the text is followed by a character that is neither
    whitespace nor the continuation of a number (a digit, [.], [e], [E]),
    it throws the [SyntaxError]. *)
Theorem fromJSON_trailing
    (prototype : Type) (proto : prototype) (v : JSON.value)
    (c : ascii) (rest : string) :
  JSON.representable v = true ->
  JSON.is_whitespace c = false ->
  JSON.ends_number (String c rest) = true ->
  fromJSON proto (getJSON v ++ String c rest) = inl SyntaxError.
Proof.
  intros Hv Hc He. unfold fromJSON, getJSON, JSON.parse.
  rewrite JSONFacts.parse_value_stringify.
  - simpl. now rewrite Hc.
  - pose proof (JSONFacts.fuel_of_length v). rewrite length_append. lia.
  - exact Hv.
  - exact He.
Qed.

Lemma fromJSON_trailing_witness :
  JSON.representable circle = true /\
  fromJSON "Circle.prototype" (getJSON circle ++ ";") = inl SyntaxError.
Proof.
  split; [reflexivity|].
  apply (fromJSON_trailing string "Circle.prototype" circle ";" "");
    reflexivity.
Defined.

(** ** [Rectangle] through JSON *)

(** X14: a rectangle of two safe integers survives [getJSON] and
    [fromJSON] with [Rectangle.prototype]: the text holds the two fields
    in the order the constructor assigns them, the value read back is the
    rectangle, with its prototype, and when the product of the sides is a
    safe integer [getArea] on it returns that product. *)
Theorem Rectangle_revived (w h : Z) :
  (Z.abs w <= JSON.MAX_SAFE_INTEGER)%Z ->
  (Z.abs h <= JSON.MAX_SAFE_INTEGER)%Z ->
  (Z.abs (w * h) <= JSON.MAX_SAFE_INTEGER)%Z ->
  getJSON (data (Rectangle w h)) =
    "{" ++ dquote ++ "width" ++ dquote ++ ":" ++ JSON.Number_toString w ++
    "," ++ dquote ++ "height" ++ dquote ++ ":" ++ JSON.Number_toString h ++
    "}" /\
  fromJSON Rectangle_prototype (getJSON (data (Rectangle w h)))
    = inr (Rectangle w h) /\
  (forall r, fromJSON Rectangle_prototype (getJSON (data (Rectangle w h)))
             = inr r ->
             getArea r = Some (w * h)%Z).
Proof.
  intros Hw Hh Hp.
  assert (Hr : JSON.representable (data (Rectangle w h)) = true).
  { simpl. apply Z.leb_le in Hw, Hh. now rewrite Hw, Hh. }
  assert (Hf : fromJSON Rectangle_prototype (getJSON (data (Rectangle w h)))
               = inr (Rectangle w h)).
  { unfold fromJSON, getJSON. now rewrite (JSONFacts.parse_stringify _ Hr). }
  split; [|split; [exact Hf|]].
  - unfold getJSON. simpl. unfold JSON.member_text. simpl.
    repeat (rewrite append_assoc; simpl). reflexivity.
  - intros r Hr'. rewrite Hf in Hr'. injection Hr' as <-.
    unfold getArea, multiply. simpl.
    apply Z.leb_le in Hp. now rewrite Hp.
Qed.

Lemma Rectangle_revived_witness :
  (Z.abs 10 <= JSON.MAX_SAFE_INTEGER)%Z /\
  (Z.abs 20 <= JSON.MAX_SAFE_INTEGER)%Z /\
  (Z.abs (10 * 20) <= JSON.MAX_SAFE_INTEGER)%Z /\
  getJSON (data (Rectangle 10 20)) =
    "{" ++ dquote ++ "width" ++ dquote ++ ":10," ++
    dquote ++ "height" ++ dquote ++ ":20}" /\
  getArea (Rectangle 10 20) = Some 200%Z.
Proof.
  assert (H1 : (Z.abs 10 <= JSON.MAX_SAFE_INTEGER)%Z) by (vm_compute; discriminate).
  assert (H2 : (Z.abs 20 <= JSON.MAX_SAFE_INTEGER)%Z) by (vm_compute; discriminate).
  assert (H3 : (Z.abs (10 * 20) <= JSON.MAX_SAFE_INTEGER)%Z)
    by (vm_compute; discriminate).
  split; [exact H1|]. split; [exact H2|]. split; [exact H3|].
  destruct (Rectangle_revived 10 20 H1 H2 H3) as (_ & Hf & Ha).
  split; [reflexivity|]. apply Ha. exact Hf.
Defined.
